(** * strict_variant: the indirection wrapper and the variant built on it

    A shallow embedding of [include/strict_variant/recursive_wrapper.hpp]
    (class [recursive_wrapper<T>], the [detail::pierce_recursive_wrapper]
    overloads, the traits [unwrap_type] and [wrap_if_throwing_move]) over an
    explicit memory, followed by a model of the container of
    [strict_variant/variant.hpp] as the specification describes it.

    Conventions.
    - A pointer [T *] is an [option addr]; [nullptr] is [None].
    - Every member function takes the identity [this] of the wrapper object it
      runs on, so that [a = std::move(a)] is the same code run with
      [this = rhs].
    - Dereferencing a null or dangling pointer, deleting storage that is not
      allocated, and touching an object whose lifetime has ended are undefined
      behaviour in C++; here they stop the run with a [fault].
    - A template that is removed from overload resolution, or whose body does
      not compile, yields [None] before any run starts.
    - The wrapped type [T] has value semantics: copying or assigning a [T]
      copies its value and does not throw.  What a move leaves in the
      caller's own [T] object is not tracked.
    - In the first memory model every wrapper is an object of its own and a
      [T] holds no wrapper, as for [recursive_wrapper<int>].  Module
      [Nested] is the memory for a [T] that has wrappers among its members,
      as [xml_node] has; there [delete] runs the destructor of [T], which
      destroys those members. *)

From stdpp Require Import gmap strings list fin_maps.
From stdpp Require Import pretty.

(* ===================================================================== *)
(** * Types of the program and the traits computed on them *)
(* ===================================================================== *)

(** The four arithmetic categories the resolver distinguishes. *)
Inductive category := boolean | signed_integer | unsigned_integer | floating_point.

(** Descriptors of C++ types.  A class type records what
    [std::is_nothrow_destructible] and [std::is_nothrow_move_constructible]
    answer for it, since both follow from its declaration. *)
Inductive cpp_type :=
  | arithmetic (c : category) (name : string) (bits : N)
  | class_type (name : string) (nothrow_dtor nothrow_move : bool)
  | reference_to (t : cpp_type)
  | recursive_wrapper (t : cpp_type).

#[global] Instance category_eq_dec : EqDecision category.
Proof. solve_decision. Defined.

#[global] Instance cpp_type_eq_dec : EqDecision cpp_type.
Proof. solve_decision. Defined.

(** [std::is_reference<T>::value]. *)
Definition is_reference (t : cpp_type) : bool :=
  match t with
  | reference_to _ => true
  | _ => false
  end.

(** [std::is_nothrow_destructible<T>::value].  For [recursive_wrapper<T>] the
    answer comes from line 21, [~recursive_wrapper() noexcept]. *)
Definition is_nothrow_destructible (t : cpp_type) : bool :=
  match t with
  | arithmetic _ _ _ => true
  | class_type _ d _ => d
  | reference_to _ => true
  | recursive_wrapper _ => true
  end.

(** [std::is_nothrow_move_constructible<T>::value].  For
    [recursive_wrapper<T>] the answer comes from line 34,
    [recursive_wrapper(recursive_wrapper && rhs) noexcept]. *)
Definition is_nothrow_move_constructible (t : cpp_type) : bool :=
  match t with
  | arithmetic _ _ _ => true
  | class_type _ _ m => m
  | reference_to _ => true
  | recursive_wrapper _ => true
  end.

(** [unwrap_type<T>::type] (lines 138-149): the primary template is the
    identity, the partial specialisation strips one wrapper. *)
Definition unwrap_type (t : cpp_type) : cpp_type :=
  match t with
  | recursive_wrapper u => u
  | _ => t
  end.

(** [wrap_if_throwing_move<T>::type] (lines 155-163).  The second template
    parameter is an [enable_if_t]: when its condition is false the template
    has no instance for [T], rendered as [None]. *)
Definition wrap_if_throwing_move (t : cpp_type) : option cpp_type :=
  if is_nothrow_destructible t && negb (is_reference t)
  then Some (if is_nothrow_move_constructible t then t else recursive_wrapper t)
  else None.

(* ===================================================================== *)
(** * Memory *)
(* ===================================================================== *)

(** Addresses handed out by [new]. *)
Definition addr := positive.
(** Identity of a [recursive_wrapper<T>] object (its [this]). *)
Definition wid := positive.
(** Identity of a [T] object that does not live behind a wrapper: a variable,
    a temporary, or the storage of a container. *)
Definition place := positive.

(** What a run can trip over. *)
Inductive fault :=
  | null_dereference     (* [*p] with [p == nullptr] *)
  | dangling_dereference (* [*p] where [p] was deleted *)
  | invalid_delete       (* [delete p] where [p] is not allocated *)
  | dead_object.         (* use of an object outside its lifetime *)

#[global] Instance fault_eq_dec : EqDecision fault.
Proof. solve_decision. Defined.

(** The allocator behind [new]: it may return any address that is not in use,
    including one that was freed earlier. *)
Class Allocator := {
  alloc_pick : gset addr → addr;
  alloc_pick_fresh : ∀ X, alloc_pick X ∉ X
}.

(** An allocator that always takes the least unused address. *)
#[global] Instance least_allocator : Allocator :=
  {| alloc_pick := fresh; alloc_pick_fresh := is_fresh |}.

(** Value category and constness of a reference. *)
Inductive qualifier := mut_lvalue | const_lvalue | rvalue.

(** Where a reference points. *)
Inductive target :=
  | in_place (x : place)
  | in_heap (a : addr).

Record reference := Reference { ref_qual : qualifier; ref_target : target }.

#[global] Instance qualifier_eq_dec : EqDecision qualifier.
Proof. solve_decision. Defined.
#[global] Instance target_eq_dec : EqDecision target.
Proof. solve_decision. Defined.
#[global] Instance reference_eq_dec : EqDecision reference.
Proof. solve_decision. Defined.

Section memory.
Context {T : Type}.

(** The memory when a [T] holds no wrapper: wrappers are objects of their
    own, apart from the heap.  For wrappers that live inside a pointee see
    [Nested.machine]. *)
Record machine := Machine {
  heap : gmap addr T;                  (* objects made by [new], not yet deleted *)
  places : gmap place T;               (* objects with a place of their own *)
  wrappers : gmap wid (option addr);   (* live wrapper objects: their field [m_t] *)
  new_count : nat;                     (* how many times [new] ran *)
  delete_log : list addr               (* every [delete], latest first *)
}.

Inductive outcome (A : Type) :=
  | Done (a : A) (m : machine)
  | Fault (f : fault).
Global Arguments Done {A} a m.
Global Arguments Fault {A} f.

(** Runs are state passing with faults. *)
Definition M (A : Type) : Type := machine → outcome A.

Global Instance M_ret : MRet M := λ A a m, Done a m.
Global Instance M_bind : MBind M := λ A B f c m,
  match c m with
  | Done a m' => f a m'
  | Fault e => Fault e
  end.
Global Instance M_fmap : FMap M := λ A B f c m,
  match c m with
  | Done a m' => Done (f a) m'
  | Fault e => Fault e
  end.

Definition raise {A} (f : fault) : M A := λ _, Fault f.

Context `{Allocator}.

(** [new T(v)]. *)
Definition new_T (v : T) : M addr := λ m,
  let a := alloc_pick (dom (heap m)) in
  Done a (Machine (<[a := v]> (heap m)) (places m) (wrappers m)
                  (S (new_count m)) (delete_log m)).

(** [delete p] for a non-null [p], for a [T] whose destructor has no wrapper
    to destroy: one allocation goes.  [Nested.delete_T] runs the destructor
    of a [T] that has wrappers among its members. *)
Definition delete_T (a : addr) : M unit := λ m,
  match heap m !! a with
  | Some _ =>
      Done () (Machine (delete a (heap m)) (places m) (wrappers m)
                       (new_count m) (a :: delete_log m))
  | None => Fault invalid_delete
  end.

(** [*p] as an lvalue: the address of the pointee. *)
Definition deref (p : option addr) : M addr := λ m,
  match p with
  | None => Fault null_dereference
  | Some a =>
      match heap m !! a with
      | Some _ => Done a m
      | None => Fault dangling_dereference
      end
  end.

(** Reading the object a reference designates. *)
Definition load (r : reference) : M T := λ m,
  match ref_target r with
  | in_heap a =>
      match heap m !! a with
      | Some v => Done v m
      | None => Fault dangling_dereference
      end
  | in_place x =>
      match places m !! x with
      | Some v => Done v m
      | None => Fault dead_object
      end
  end.

(** [*p = v] once [*p] has been formed: [T]'s assignment operator. *)
Definition store (a : addr) (v : T) : M unit := λ m,
  match heap m !! a with
  | Some _ =>
      Done () (Machine (<[a := v]> (heap m)) (places m) (wrappers m)
                       (new_count m) (delete_log m))
  | None => Fault dangling_dereference
  end.

(** Reading the field [m_t] of the wrapper [this]. *)
Definition read_m_t (this : wid) : M (option addr) := λ m,
  match wrappers m !! this with
  | Some p => Done p m
  | None => Fault dead_object
  end.

(** [m_t = p] in a member function of a live wrapper. *)
Definition write_m_t (this : wid) (p : option addr) : M unit := λ m,
  match wrappers m !! this with
  | Some _ =>
      Done () (Machine (heap m) (places m) (<[this := p]> (wrappers m))
                       (new_count m) (delete_log m))
  | None => Fault dead_object
  end.

(** The member initialiser [: m_t(p)] of a constructor: the lifetime of the
    wrapper [this] begins. *)
Definition init_m_t (this : wid) (p : option addr) : M unit := λ m,
  Done () (Machine (heap m) (places m) (<[this := p]> (wrappers m))
                   (new_count m) (delete_log m)).

(** A [T] object is built from [v] at the place [x]. *)
Definition construct_at (x : place) (v : T) : M unit := λ m,
  Done () (Machine (heap m) (<[x := v]> (places m)) (wrappers m)
                   (new_count m) (delete_log m)).

(** [T]'s assignment operator on the object at the place [x]. *)
Definition assign_at (x : place) (v : T) : M unit := λ m,
  match places m !! x with
  | Some _ =>
      Done () (Machine (heap m) (<[x := v]> (places m)) (wrappers m)
                       (new_count m) (delete_log m))
  | None => Fault dead_object
  end.

(** [T]'s destructor on the object at the place [x]. *)
Definition destroy_at (x : place) : M unit := λ m,
  match places m !! x with
  | Some _ =>
      Done () (Machine (heap m) (delete x (places m)) (wrappers m)
                       (new_count m) (delete_log m))
  | None => Fault dead_object
  end.

(** The end of a destructor: the lifetime of the wrapper [this] ends. *)
Definition end_lifetime (this : wid) : M unit := λ m,
  Done () (Machine (heap m) (places m) (delete this (wrappers m))
                   (new_count m) (delete_log m)).

End memory.

Global Arguments machine : clear implicits.
Global Arguments outcome : clear implicits.
Global Arguments M : clear implicits.

(* ===================================================================== *)
(** * class recursive_wrapper<T> (lines 18-90) *)
(* ===================================================================== *)

Section recursive_wrapper.
Context {T : Type} `{Allocator}.

(** [void destroy() { if (m_t) { delete m_t; } }] (lines 87-89).  The field
    keeps its value. *)
Definition destroy (this : wid) : M T unit :=
  p ← read_m_t this;
  match p with
  | Some a => delete_T a
  | None => mret ()
  end.

(** [template <typename U> void assign(U && u) { *m_t = std::forward<U>(u); }]
    (lines 82-85), the argument already converted to a value of [T]. *)
Definition assign (this : wid) (u : T) : M T unit :=
  p ← read_m_t this;
  a ← deref p;
  store a u.

(** [T & get() & { return *m_t; }] (line 75). *)
Definition get (this : wid) : M T reference :=
  p ← read_m_t this;
  a ← deref p;
  mret (Reference mut_lvalue (in_heap a)).

(** [const T & get() const & { return *m_t; }] (line 76). *)
Definition get_const (this : wid) : M T reference :=
  p ← read_m_t this;
  a ← deref p;
  mret (Reference const_lvalue (in_heap a)).

(** [T && get() && { return std::move( *m_t ); }] (line 77). *)
Definition get_rvalue (this : wid) : M T reference :=
  p ← read_m_t this;
  a ← deref p;
  mret (Reference rvalue (in_heap a)).

(** [~recursive_wrapper() noexcept { this->destroy(); }] (line 21). *)
Definition dtor (this : wid) : M T unit :=
  destroy this;;
  end_lifetime this.

(** [recursive_wrapper() : m_t(new T()) {}] (lines 23-25).  [T()] is the
    default constructor of [T] when it has one; without it the body does
    not compile. *)
Definition ctor_default (T_default : option T) (this : wid) : option (M T unit) :=
  d ← T_default;
  Some (a ← new_T d; init_m_t this (Some a)).

(** [template <typename U, typename Dummy = enable_if_t<is_convertible<U, T>::value>>
     recursive_wrapper(U && u) : m_t(new T(std::forward<U>(u))) {}]
    (lines 27-29).  [convert] is the conversion from [U] to [T] when
    [std::is_convertible<U, T>] holds; without it the constructor is not a
    candidate. *)
Definition ctor_from {U : Type} (convert : option (U → T)) (this : wid) (u : U)
  : option (M T unit) :=
  f ← convert;
  Some (a ← new_T (f u); init_m_t this (Some a)).

(** [recursive_wrapper(const recursive_wrapper & rhs) : m_t(new T(rhs.get())) {}]
    (lines 31-32). *)
Definition ctor_copy (this rhs : wid) : M T unit :=
  r ← get_const rhs;
  v ← load r;
  a ← new_T v;
  init_m_t this (Some a).

(** [recursive_wrapper(recursive_wrapper && rhs) noexcept : m_t(rhs.m_t)
     { rhs.m_t = nullptr; }] (lines 34-38). *)
Definition ctor_move (this rhs : wid) : M T unit :=
  p ← read_m_t rhs;
  init_m_t this p;;
  write_m_t rhs None.

(** [operator=(const recursive_wrapper & rhs) { this->assign(rhs.get()); ... }]
    (lines 40-49). *)
Definition copy_assign (this rhs : wid) : M T unit :=
  r ← get_const rhs;
  v ← load r;
  assign this v.

(** [operator=(recursive_wrapper && rhs) noexcept
     { this->destroy(); m_t = rhs.m_t; rhs.m_t = nullptr; ... }]
    (lines 51-56). *)
Definition move_assign (this rhs : wid) : M T unit :=
  destroy this;;
  p ← read_m_t rhs;
  write_m_t this p;;
  write_m_t rhs None.

(** [operator=(const T & t) { this->assign(t); ... }] (lines 58-65). *)
Definition assign_const (this : wid) (t : T) : M T unit :=
  assign this t.

(** [operator=(T && t) { this->assign(std::move(t)); ... }] (lines 67-73).
    [t] is the value the pointee receives; the moved-from state of the
    caller's object is not tracked. *)
Definition assign_rvalue (this : wid) (t : T) : M T unit :=
  assign this t.

End recursive_wrapper.

(* ===================================================================== *)
(** * namespace detail: piercing the wrapper (lines 92-133) *)
(* ===================================================================== *)

Module detail.
Section pierce.
Context {T : Type} `{Allocator}.

(** What [pierce_recursive_wrapper] is called on: a [T] that is not
    wrapped, given by a reference to it, or a wrapper, given by its identity
    and the qualification of the expression naming it. *)
Inductive operand :=
  | a_value (t : reference)
  | a_wrapper (q : qualifier) (w : wid).

(** [T & pierce_recursive_wrapper(T & t) { return t; }] (lines 97-101). *)
Definition pierce_lvalue (t : reference) : M T reference :=
  mret t.

(** [T & pierce_recursive_wrapper(recursive_wrapper<T> & t) { return t.get(); }]
    (lines 103-107). *)
Definition pierce_lvalue_wrapper (t : wid) : M T reference :=
  get t.

(** [T && pierce_recursive_wrapper(T && t) { return std::move(t); }]
    (lines 109-113). *)
Definition pierce_rvalue (t : reference) : M T reference :=
  mret (Reference rvalue (ref_target t)).

(** [T && pierce_recursive_wrapper(recursive_wrapper<T> && t)
     { return std::move(t.get()); }] (lines 115-119).  Inside the body [t]
    is a named reference, hence an lvalue: [get() &] is the overload
    called. *)
Definition pierce_rvalue_wrapper (t : wid) : M T reference :=
  r ← get t;
  mret (Reference rvalue (ref_target r)).

(** [const T & pierce_recursive_wrapper(const T & t) { return t; }]
    (lines 121-125). *)
Definition pierce_const (t : reference) : M T reference :=
  mret t.

(** [const T & pierce_recursive_wrapper(const recursive_wrapper<T> & t)
     { return t.get(); }] (lines 127-131). *)
Definition pierce_const_wrapper (t : wid) : M T reference :=
  get_const t.

(** Overload resolution among the six: the wrapper overloads are the more
    specialised ones, so they win whenever the argument is a wrapper. *)
Definition pierce_recursive_wrapper (x : operand) : M T reference :=
  match x with
  | a_value t =>
      match ref_qual t with
      | mut_lvalue => pierce_lvalue t
      | rvalue => pierce_rvalue t
      | const_lvalue => pierce_const t
      end
  | a_wrapper mut_lvalue w => pierce_lvalue_wrapper w
  | a_wrapper rvalue w => pierce_rvalue_wrapper w
  | a_wrapper const_lvalue w => pierce_const_wrapper w
  end.

End pierce.
End detail.

(* ===================================================================== *)
(** * The alternative resolver and the container *)
(* ===================================================================== *)

(** Modelled from the spec: the three tiers of a candidate, most preferred
    first (section 4.2, step 2). *)
Inductive tier := exact_match | safe_widening | user_conversion.

(** Modelled from the spec: the position of a tier in the order of
    preference. *)
Definition tier_rank (t : tier) : nat :=
  match t with
  | exact_match => 0
  | safe_widening => 1
  | user_conversion => 2
  end.

Definition is_arithmetic (t : cpp_type) : bool :=
  match t with
  | arithmetic _ _ _ => true
  | _ => false
  end.

(** Modelled from the spec: a widening inside one arithmetic category, that
    is the same category and at least as many bits (section 4.2, step 2). *)
Definition same_category_widening (U A : cpp_type) : Prop :=
  ∃ c n1 b1 n2 b2,
    U = arithmetic c n1 b1 ∧ A = arithmetic c n2 b2 ∧ (b1 ≤ b2)%N.

#[global] Instance tier_eq_dec : EqDecision tier.
Proof. solve_decision. Defined.

Section resolver.
(** The implicit conversions that classes and other non-arithmetic types
    declare: [converts U A] when a [U] converts to an [A]. *)
Variable converts : cpp_type → cpp_type → bool.

(** Modelled from the spec: the tier of one alternative for an input of
    type [U] (section 4.2, step 2); the resolver of
    [strict_variant/variant.hpp] is not among the sources.  Between two
    arithmetic types only a widening inside one category is eligible; the
    declared conversions count when one side is not arithmetic. *)
Definition classify (U A : cpp_type) : option tier :=
  let A' := unwrap_type A in
  if decide (U = A') then Some exact_match
  else
    match U, A' with
    | arithmetic cu _ bu, arithmetic ca _ ba =>
        if bool_decide (cu = ca) && (bu <=? ba)%N then Some safe_widening else None
    | _, _ => if converts U A' then Some user_conversion else None
    end.

(** Modelled from the spec: the indices, counted from [i], of the
    alternatives that are candidates of tier [t] for an input of type [U]. *)
Fixpoint candidates_from (i : nat) (U : cpp_type) (t : tier)
    (alts : list cpp_type) : list nat :=
  match alts with
  | [] => []
  | A :: rest =>
      if decide (classify U A = Some t)
      then i :: candidates_from (S i) U t rest
      else candidates_from (S i) U t rest
  end.

(** Modelled from the spec: the candidates of tier [t] among all the
    alternatives. *)
Definition candidates (U : cpp_type) (t : tier) (alts : list cpp_type) : list nat :=
  candidates_from 0 U t alts.

(** Modelled from the spec: resolution (section 4.2, steps 3 and 4) of
    [strict_variant/variant.hpp], not among the sources.  The first tier
    that has a candidate decides: one candidate is selected, several are an
    ambiguity; no candidate in any tier is a failure too. *)
Definition resolve (U : cpp_type) (alts : list cpp_type) : option nat :=
  match candidates U exact_match alts with
  | [i] => Some i
  | _ :: _ :: _ => None
  | [] =>
      match candidates U safe_widening alts with
      | [i] => Some i
      | _ :: _ :: _ => None
      | [] =>
          match candidates U user_conversion alts with
          | [i] => Some i
          | _ => None
          end
      end
  end.

(** Modelled from the spec: the first tier that has a candidate, with its
    candidates (section 4.2, step 3). *)
Definition deciding_tier (U : cpp_type) (alts : list cpp_type)
  : option (tier * list nat) :=
  match candidates U exact_match alts with
  | (_ :: _) as l => Some (exact_match, l)
  | [] =>
      match candidates U safe_widening alts with
      | (_ :: _) as l => Some (safe_widening, l)
      | [] =>
          match candidates U user_conversion alts with
          | (_ :: _) as l => Some (user_conversion, l)
          | [] => None
          end
      end
  end.

End resolver.

(** Modelled from the spec: a list of alternatives is accepted when no type
    occurs twice after unwrapping (section 4.2, step 1); the check of
    [strict_variant/variant.hpp] is not among the sources. *)
Definition alternatives_ok (alts : list cpp_type) : Prop :=
  NoDup (unwrap_type <$> alts).

(** Modelled from the spec: an instance of the container (sections 3 and
    4.3) of [strict_variant/variant.hpp], not among the sources.  Its raw
    storage is one location, named as a place when the active alternative is
    stored directly and as a wrapper when it is stored behind one. *)
Record variant := Variant {
  alternatives : list cpp_type;
  m_which : nat;
  storage_place : place;
  storage_wrapper : wid
}.

(** Modelled from the spec: the alternative the discriminant designates
    (section 3). *)
Definition active_alternative (c : variant) : option cpp_type :=
  alternatives c !! m_which c.

Section container.
Context {T : Type} `{Allocator}.

(** Modelled from the spec: reaching the stored value of alternative [A]
    through [pierce_recursive_wrapper] (sections 4.1, 4.5 and 4.6). *)
Definition pierce_storage (q : qualifier) (c : variant) (A : cpp_type)
  : M T reference :=
  match A with
  | recursive_wrapper _ =>
      detail.pierce_recursive_wrapper (detail.a_wrapper q (storage_wrapper c))
  | _ =>
      detail.pierce_recursive_wrapper
        (detail.a_value (Reference q (in_place (storage_place c))))
  end.

(** Modelled from the spec: [access<X>(&c)] (section 4.5), [get<X>] of
    [strict_variant/variant.hpp], not among the sources.  The result is a
    pointer, [None] for absence. *)
Definition access (X : cpp_type) (c : variant) : M T (option reference) :=
  match active_alternative c with
  | Some A =>
      if decide (unwrap_type A = X)
      then Some <$> pierce_storage mut_lvalue c A
      else mret None
  | None => mret None
  end.

(** Modelled from the spec: [apply(visitor, c)] (section 4.6),
    [apply_visitor] of [strict_variant/variant.hpp], not among the sources.
    The visitor has one branch for each unwrapped alternative type. *)
Definition apply_visitor {R : Type} (visitor : cpp_type → T → R) (c : variant)
  : M T R :=
  match active_alternative c with
  | Some A =>
      r ← pierce_storage const_lvalue c A;
      v ← load r;
      mret (visitor (unwrap_type A) v)
  | None => raise dead_object
  end.

(** Modelled from the spec: destroy-active (section 4.3). *)
Definition destroy_active (c : variant) : M T unit :=
  match active_alternative c with
  | Some (recursive_wrapper _) => dtor (storage_wrapper c)
  | Some _ => destroy_at (storage_place c)
  | None => raise dead_object
  end.

(** Modelled from the spec: construct-alternative (section 4.3) of the
    alternative [A] at index [i] from a value of its unwrapped type. *)
Definition construct_alternative (c : variant) (i : nat) (A : cpp_type) (v : T)
  : M T variant :=
  match A with
  | recursive_wrapper _ =>
      default (raise dead_object) (ctor_from (Some id) (storage_wrapper c) v)
  | _ => construct_at (storage_place c) v
  end;;
  mret (Variant (alternatives c) i (storage_place c) (storage_wrapper c)).

(** Modelled from the spec: converting assignment [c = v] for [v] of type
    [U] (section 4.4) of [strict_variant/variant.hpp], not among the
    sources.  [None] when resolution fails.  [convert] turns a value of the
    input type into one of the selected alternative when they differ. *)
Definition assign_value (converts : cpp_type → cpp_type → bool)
    (convert : cpp_type → cpp_type → T → T)
    (c : variant) (U : cpp_type) (v : T) : option (M T variant) :=
  i ← resolve converts U (alternatives c);
  A ← alternatives c !! i;
  let v' := if decide (U = unwrap_type A) then v else convert U (unwrap_type A) v in
  Some (if decide (i = m_which c)
        then
          match A with
          | recursive_wrapper _ => assign_rvalue (storage_wrapper c) v'
          | _ => assign_at (storage_place c) v'
          end;;
          mret c
        else
          destroy_active c;;
          construct_alternative c i A v').

(** Modelled from the spec: the container [c] holds the value [v] in
    memory [m] (section 3): directly in its storage, or in the allocation
    owned by the wrapper in its storage. *)
Definition holds (c : variant) (m : machine T) (v : T) : Prop :=
  match active_alternative c with
  | Some (recursive_wrapper _) =>
      ∃ a, wrappers m !! storage_wrapper c = Some (Some a) ∧ heap m !! a = Some v
  | Some _ => places m !! storage_place c = Some v
  | None => False
  end.

End container.

(* ===================================================================== *)
(** * Ownership: what the wrappers hold of the heap *)
(* ===================================================================== *)

Section ownership.
Context {T : Type} `{Allocator}.

(** The wrapper [w] is alive and its [m_t] is the address [a]. *)
Definition owns (m : machine T) (w : wid) (a : addr) : Prop :=
  wrappers m !! w = Some (Some a).

(** The wrapper [w] is alive and its [m_t] is [nullptr]. *)
Definition released (m : machine T) (w : wid) : Prop :=
  wrappers m !! w = Some None.

(** Wrappers and allocations are matched one to one, and every [new] is
    either still allocated or was deleted once. *)
Record single_ownership (m : machine T) : Prop := {
  owned_live : ∀ w a, owns m w a → is_Some (heap m !! a);
  owned_once : ∀ w1 w2 a, owns m w1 a → owns m w2 a → w1 = w2;
  no_leak : ∀ a, is_Some (heap m !! a) → ∃ w, owns m w a;
  balance : new_count m = length (delete_log m) + size (heap m)
}.

(** The four assignment operators, by their right-hand side. *)
Inductive assignment :=
  | copy_from (rhs : wid)
  | move_from (rhs : wid)
  | from_const (t : T)
  | from_rvalue (t : T).

Definition run_assignment (this : wid) (a : assignment) : M T unit :=
  match a with
  | copy_from rhs => copy_assign this rhs
  | move_from rhs => move_assign this rhs
  | from_const t => assign_const this t
  | from_rvalue t => assign_rvalue this t
  end.

(** The public operations of the class.  A constructor is given the value
    its [new T(...)] expression builds. *)
Inductive operation :=
  | op_ctor_default (d : T) (this : wid)
  | op_ctor_from (v : T) (this : wid)
  | op_ctor_copy (this rhs : wid)
  | op_ctor_move (this rhs : wid)
  | op_dtor (this : wid)
  | op_assign (this : wid) (a : assignment)
  | op_get (q : qualifier) (this : wid).

Definition run_operation (o : operation) : M T unit :=
  match o with
  | op_ctor_default d this =>
      default (raise dead_object) (ctor_default (Some d) this)
  | op_ctor_from v this =>
      default (raise dead_object) (ctor_from (Some id) this v)
  | op_ctor_copy this rhs => ctor_copy this rhs
  | op_ctor_move this rhs => ctor_move this rhs
  | op_dtor this => dtor this
  | op_assign this a => run_assignment this a
  | op_get mut_lvalue this => get this;; mret ()
  | op_get const_lvalue this => get_const this;; mret ()
  | op_get rvalue this => get_rvalue this;; mret ()
  end.

(** A constructor runs on storage in which no wrapper lives. *)
Definition constructs (o : operation) : option wid :=
  match o with
  | op_ctor_default _ this | op_ctor_from _ this
  | op_ctor_copy this _ | op_ctor_move this _ => Some this
  | _ => None
  end.

(** The wrappers an operation dereferences. *)
Definition dereferences (o : operation) : list wid :=
  match o with
  | op_ctor_copy _ rhs => [rhs]
  | op_assign this (copy_from rhs) => [this; rhs]
  | op_assign this (from_const _) | op_assign this (from_rvalue _) => [this]
  | op_get _ this => [this]
  | _ => []
  end.

(** The wrappers an operation uses without dereferencing them. *)
Definition touches (o : operation) : list wid :=
  match o with
  | op_ctor_move _ rhs => [rhs]
  | op_dtor this => [this]
  | op_assign this (move_from rhs) => [this; rhs]
  | _ => []
  end.

(** All three qualifications of [get()] on the wrapper [this] designate
    one object, the allocation [a], and that object has the value [v]. *)
Definition gets (m : machine T) (this : wid) (a : addr) (v : T) : Prop :=
  get this m = Done (Reference mut_lvalue (in_heap a)) m
  ∧ get_const this m = Done (Reference const_lvalue (in_heap a)) m
  ∧ get_rvalue this m = Done (Reference rvalue (in_heap a)) m
  ∧ ∀ q, load (Reference q (in_heap a)) m = Done v m.

End ownership.

Global Arguments assignment : clear implicits.
Global Arguments operation : clear implicits.

(** What the caller of a run gets back, the memory left aside. *)
Definition result {T A : Type} (o : outcome T A) : fault + A :=
  match o with
  | Done a _ => inr a
  | Fault f => inl f
  end.

(** ** Machines and types used in the examples *)

Definition empty_machine {T : Type} : machine T := Machine ∅ ∅ ∅ 0 [].

(** Two wrappers, each owning an allocation. *)
Definition two_owners : machine Z :=
  Machine {[ 1%positive := 10%Z; 2%positive := 20%Z ]} ∅
          {[ 1%positive := Some 1%positive; 2%positive := Some 2%positive ]} 2 [].

(** Wrapper 1 was moved into wrapper 2. *)
Definition moved_from_one : machine Z :=
  Machine {[ 1%positive := 10%Z ]} ∅
          {[ 1%positive := None; 2%positive := Some 1%positive ]} 1 [].

Definition int32_t : cpp_type := arithmetic signed_integer "int32_t" 32.
Definition int64_t : cpp_type := arithmetic signed_integer "int64_t" 64.
Definition uint64_t : cpp_type := arithmetic unsigned_integer "uint64_t" 64.
Definition double_t : cpp_type := arithmetic floating_point "double" 64.
Definition std_string : cpp_type := class_type "std::string" true true.
Definition char_pointer : cpp_type := class_type "const char *" true true.
Definition throwing_mover : cpp_type := class_type "throwing_mover" true false.
Definition xml_node : cpp_type := class_type "xml_node" true true.

(** [variant<std::string, xml_node>] holding an [xml_node] in its storage. *)
Definition direct_container : variant :=
  Variant [std_string; xml_node] 1 1%positive 1%positive.
Definition direct_memory : machine Z :=
  Machine ∅ {[ 1%positive := 42%Z ]} ∅ 0 [].

(** [variant<std::string, recursive_wrapper<xml_node>>] holding an
    [xml_node] behind the wrapper in its storage. *)
Definition wrapped_container : variant :=
  Variant [std_string; recursive_wrapper xml_node] 1 1%positive 1%positive.
Definition wrapped_memory : machine Z :=
  Machine {[ 1%positive := 42%Z ]} ∅ {[ 1%positive := Some 1%positive ]} 1 [].

(** [variant<int32_t, int64_t>] holding an [int32_t]. *)
Definition integer_container : variant :=
  Variant [int32_t; int64_t] 0 1%positive 1%positive.
Definition integer_memory : machine Z :=
  Machine ∅ {[ 1%positive := 5%Z ]} ∅ 0 [].

(** [variant<int, std::string>] of [tutorial_basic.cpp], default constructed:
    it holds the [int] zero.  A value is an [int] or a string. *)
Definition int_t : cpp_type := arithmetic signed_integer "int" 32.
Definition tutorial_container : variant :=
  Variant [int_t; std_string] 0 1%positive 1%positive.
Definition tutorial_memory : machine (Z + string) :=
  Machine ∅ {[ 1%positive := inl 0%Z ]} ∅ 0 [].

(** Converting a value between types leaves its representation alone. *)
Definition same_representation {T : Type} (U A : cpp_type) (v : T) : T := v.

(** [std::string] has a converting constructor from [const char *]. *)
Definition string_from_literal (U A : cpp_type) : bool :=
  bool_decide (U = char_pointer ∧ A = std_string).

(** No declared conversion at all. *)
Definition no_conversion (U A : cpp_type) : bool := false.

(* ===================================================================== *)
(** * recursive_wrapper<T> when a T has wrappers among its members *)
(* ===================================================================== *)

(** The recursive use the class is made for ([tutorial_basic.cpp], lines
    200-209): an [xml_node] has a [body] of variants over
    [recursive_wrapper<xml_node>], so the pointee of a wrapper has wrappers
    among its members.  Here a pointee lists the wrappers that live inside
    it, and [delete] runs its destructor, which destroys them first. *)
Module Nested.
Section nested.
Context {T : Type}.

(** A [T] object on the heap: its value and the wrappers that are members
    of it, directly or in a container member. *)
Record object := Object { value : T; members : list wid }.

Record machine := Machine {
  heap : gmap addr object;             (* objects made by [new], not yet deleted *)
  wrappers : gmap wid (option addr);   (* live wrapper objects: their field [m_t] *)
  delete_log : list addr               (* every [delete], latest first *)
}.

Inductive outcome (A : Type) :=
  | Done (a : A) (m : machine)
  | Fault (f : fault)
  | Out_of_fuel.
Global Arguments Done {A} a m.
Global Arguments Fault {A} f.
Global Arguments Out_of_fuel {A}.

Definition M (A : Type) : Type := machine → outcome A.

#[local] Instance M_ret : MRet M := λ A a m, Done a m.
#[local] Instance M_bind : MBind M := λ A B f c m,
  match c m with
  | Done a m' => f a m'
  | Fault e => Fault e
  | Out_of_fuel => Out_of_fuel
  end.

(** Reading the field [m_t] of the wrapper [this]; a wrapper whose storage
    was freed with the pointee it lived in is not alive. *)
Definition read_m_t (this : wid) : M (option addr) := λ m,
  match wrappers m !! this with
  | Some p => Done p m
  | None => Fault dead_object
  end.

(** [m_t = p] in a member function of the wrapper [this]. *)
Definition write_m_t (this : wid) (p : option addr) : M unit := λ m,
  match wrappers m !! this with
  | Some _ => Done () (Machine (heap m) (<[this := p]> (wrappers m)) (delete_log m))
  | None => Fault dead_object
  end.

(** The end of a destructor: the lifetime of the wrapper [this] ends. *)
Definition end_lifetime (this : wid) : M unit := λ m,
  Done () (Machine (heap m) (delete this (wrappers m)) (delete_log m)).

(** The object [delete p] is about to destroy. *)
Definition object_at (a : addr) : M object := λ m,
  match heap m !! a with
  | Some o => Done o m
  | None => Fault invalid_delete
  end.

(** The deallocation that ends [delete p]. *)
Definition free (a : addr) : M unit := λ m,
  match heap m !! a with
  | Some _ => Done () (Machine (delete a (heap m)) (wrappers m) (a :: delete_log m))
  | None => Fault invalid_delete
  end.

(** [void destroy() { if (m_t) { delete m_t; } }] (lines 87-89), given what
    [delete] does. *)
Definition destroy_with (delete_p : addr → M unit) (this : wid) : M unit :=
  p ← read_m_t this;
  match p with
  | Some a => delete_p a
  | None => mret ()
  end.

(** [~recursive_wrapper() noexcept { this->destroy(); }] (line 21), given
    what [delete] does. *)
Definition dtor_with (delete_p : addr → M unit) (this : wid) : M unit :=
  destroy_with delete_p this;;
  end_lifetime this.

(** [delete p]: the destructor of [T] runs, which runs the destructor of
    every wrapper that is a member of the object, and then the storage is
    released.  The nesting of pointees is followed up to [fuel] levels. *)
Fixpoint delete_T (fuel : nat) (a : addr) : M unit :=
  match fuel with
  | 0 => λ _, Out_of_fuel
  | S fuel' =>
      o ← object_at a;
      foldr (λ w rest, dtor_with (delete_T fuel') w;; rest) (mret ()) (members o);;
      free a
  end.

(** [destroy()] (lines 87-89). *)
Definition destroy (fuel : nat) (this : wid) : M unit :=
  destroy_with (delete_T fuel) this.

(** The destructor (line 21). *)
Definition dtor (fuel : nat) (this : wid) : M unit :=
  dtor_with (delete_T fuel) this.

(** [operator=(recursive_wrapper && rhs) noexcept
     { this->destroy(); m_t = rhs.m_t; rhs.m_t = nullptr; ... }]
    (lines 51-56). *)
Definition move_assign (fuel : nat) (this rhs : wid) : M unit :=
  destroy fuel this;;
  p ← read_m_t rhs;
  write_m_t this p;;
  write_m_t rhs None.

End nested.

Global Arguments object : clear implicits.
Global Arguments machine : clear implicits.
Global Arguments outcome : clear implicits.
Global Arguments M : clear implicits.

(** A parent node whose pointee holds one child:
    [recursive_wrapper<node> parent], at wrapper 1 with its pointee at
    address 1; [parent.get().body[0]], at wrapper 2 inside that pointee,
    with its own pointee at address 2; and a wrapper 3 that is an object of
    its own, with its pointee at address 3. *)
Definition family : machine Z :=
  Machine {[ 1%positive := Object 10%Z [2%positive];
             2%positive := Object 20%Z [];
             3%positive := Object 30%Z [] ]}
          {[ 1%positive := Some 1%positive;
             2%positive := Some 2%positive;
             3%positive := Some 3%positive ]}
          [].

End Nested.

(* ===================================================================== *)
(** * Programs over wrappers *)
(* ===================================================================== *)

Section programs.
Context {T : Type} `{Allocator}.

(** An exchange done with moves only, as [std::swap] does it:
    [recursive_wrapper tmp(std::move(a)); a = std::move(b);
     b = std::move(tmp);] and [tmp] is destroyed at the end of the scope. *)
Definition swap_by_moves (a b tmp : wid) : M T unit :=
  ctor_move tmp a;;
  move_assign a b;;
  move_assign b tmp;;
  dtor tmp.

End programs.

(* ===================================================================== *)
(** * test/tutorial_basic.cpp: the two ways to format a container *)
(* ===================================================================== *)

Section tutorial.
Context `{Allocator}.
(** [std::to_string(int)]. *)
Variable to_string : Z → string.

(** [std::string operator()(const std::string & s) const { return s; }]
    (struct [formatter], line 118). *)
Definition formatter_string (s : string) : string := s.

(** [std::string operator()(int i) const
     { return "[" + std::to_string(i) + "]"; }] (struct [formatter],
    line 119). *)
Definition formatter_int (i : Z) : string :=
  "[" +:+ to_string i +:+ "]".

(** The visitor [formatter{}] (lines 117-120): the overload is selected by
    the type of the value it is called with. *)
Definition formatter (ty : cpp_type) (v : Z + string) : string :=
  match v with
  | inl i => formatter_int i
  | inr s => formatter_string s
  end.

(** A value of the tutorial is an [int] or a [std::string]. *)
Definition has_type (ty : cpp_type) (v : Z + string) : Prop :=
  match v with
  | inl _ => ty = int_t
  | inr _ => ty = std_string
  end.

(** [format_variant] (lines 147-156):
    [if (const auto * i = get<int>(&v)) return "[" + std::to_string( *i ) + "]";
     else if (const auto * str = get<std::string>(&v)) return *str;
     else assert(false && "Unsupported type!");]
    The result is [None] when the assertion is reached.  [get] is the
    [access] of the container; reading a pointer as the wrong type is a
    fault. *)
Definition format_variant (v : variant) : M (Z + string) (option string) :=
  i ← access int_t v;
  match i with
  | Some i =>
      x ← load i;
      match x with
      | inl n => mret (Some ("[" +:+ to_string n +:+ "]"))
      | inr _ => raise dead_object
      end
  | None =>
      str ← access std_string v;
      match str with
      | Some str =>
          x ← load str;
          match x with
          | inr s => mret (Some s)
          | inl _ => raise dead_object
          end
      | None => mret None
      end
  end.

End tutorial.

(* ===================================================================== *)
(** * Properties of the traits *)
(* ===================================================================== *)

Lemma recursive_wrapper_neq (t : cpp_type) : recursive_wrapper t ≠ t.
Proof. induction t; congruence. Qed.

Lemma wrap_if_throwing_move_defined (t : cpp_type) :
  is_Some (wrap_if_throwing_move t) ↔
  is_nothrow_destructible t = true ∧ is_reference t = false.
Proof.
  unfold wrap_if_throwing_move.
  destruct (is_nothrow_destructible t), (is_reference t); simpl;
    split; intros Hx; try (by eexists); try (by destruct Hx as [? ?]);
    try (by destruct Hx as [x Hx]).
Qed.

(** Claim C8, as the code has it: on every type that is neither a reference
    nor has a throwing destructor, [wrap_if_throwing_move] yields the type
    itself exactly when it is no-throw move-constructible and the wrapper
    over it otherwise, so that what it yields is always no-throw
    move-constructible (moving a wrapper moves a pointer). *)
Theorem wrap_if_throwing_move_spec (t : cpp_type) :
  is_nothrow_destructible t = true →
  is_reference t = false →
  ∃ r, wrap_if_throwing_move t = Some r
     ∧ (r = t ↔ is_nothrow_move_constructible t = true)
     ∧ (is_nothrow_move_constructible t = false → r = recursive_wrapper t)
     ∧ is_nothrow_move_constructible r = true.
Proof.
  intros Hd Hr. unfold wrap_if_throwing_move. rewrite Hd, Hr. simpl.
  destruct (is_nothrow_move_constructible t) eqn:Hm.
  - exists t. repeat split; auto; congruence.
  - exists (recursive_wrapper t). repeat split; auto.
    + intros Heq. by apply recursive_wrapper_neq in Heq.
    + congruence.
Qed.

Lemma wrap_if_throwing_move_spec_witness :
  ∃ r, wrap_if_throwing_move throwing_mover = Some r
     ∧ (r = throwing_mover ↔ is_nothrow_move_constructible throwing_mover = true)
     ∧ (is_nothrow_move_constructible throwing_mover = false →
        r = recursive_wrapper throwing_mover)
     ∧ is_nothrow_move_constructible r = true.
Proof. apply (wrap_if_throwing_move_spec throwing_mover); reflexivity. Defined.

(** Claim C8 as stated fails on a reference type: [int32_t &] is no-throw
    move-constructible, yet the trait does not map it to itself, it has no
    instance for it at all. *)
Lemma wrap_if_throwing_move_reference :
  is_nothrow_move_constructible (reference_to int32_t) = true
  ∧ wrap_if_throwing_move (reference_to int32_t) ≠ Some (reference_to int32_t)
  ∧ wrap_if_throwing_move (reference_to int32_t) = None.
Proof. repeat split; [vm_compute; discriminate]. Qed.

(* ===================================================================== *)
(** * Properties of recursive_wrapper<T> *)
(* ===================================================================== *)

(** Unfolds a run down to lookups in the maps of the machine. *)
Ltac unfold_run :=
  unfold run_operation, run_assignment, ctor_default, ctor_from, ctor_copy,
    ctor_move, copy_assign, move_assign, assign_const, assign_rvalue, dtor,
    get, get_const, get_rvalue, assign, destroy, new_T, delete_T, deref, load,
    store, read_m_t, write_m_t, init_m_t, end_lifetime, construct_at,
    assign_at, destroy_at, raise, mbind, M_bind, mret, M_ret, fmap, M_fmap
    in *;
  cbn [heap places wrappers new_count delete_log ref_target ref_qual
       default option_bind from_option] in *.

(** Resolves the lookups of a run with the equations at hand. *)
Ltac run_lookups :=
  repeat (match goal with
          | H : ?l = _ |- context [match ?l with _ => _ end] => rewrite H
          end;
          cbn [heap places wrappers new_count delete_log ref_target ref_qual]).

Section wrapper_facts.
Context {T : Type} `{Allocator}.
Implicit Types (m : machine T) (this rhs w : wid) (a : addr) (v t : T).

Lemma new_T_fresh m v : heap m !! alloc_pick (dom (heap m)) = None.
Proof. apply not_elem_of_dom, alloc_pick_fresh. Qed.

Lemma gets_owned m this a v :
  owns m this a → heap m !! a = Some v → gets m this a v.
Proof.
  unfold owns, gets. intros Hw Ha. unfold_run. rewrite Hw, Ha.
  repeat split; auto.
Qed.

(** Claim C6: the default constructor builds [T()] and does not compile
    when [T] has no default constructor; the converting constructor takes
    part only when [U] converts to [T] and then builds [T(u)]; after either,
    the three qualifications of [get()] all designate the one owned object,
    whose value is the one constructed. *)
Theorem construction_then_get m this :
  ctor_default (T:=T) None this = None
  ∧ (∀ d, ∃ run a m',
       ctor_default (Some d) this = Some run
       ∧ run m = Done () m' ∧ owns m' this a ∧ gets m' this a d
       ∧ new_count m' = S (new_count m))
  ∧ (∀ (U : Type) (u : U), ctor_from (T:=T) None this u = None)
  ∧ (∀ (U : Type) (f : U → T) (u : U), ∃ run a m',
       ctor_from (Some f) this u = Some run
       ∧ run m = Done () m' ∧ owns m' this a ∧ gets m' this a (f u)
       ∧ new_count m' = S (new_count m)).
Proof.
  split; [reflexivity |]. split; [| split; [reflexivity |]].
  - intros d. eexists _, (alloc_pick (dom (heap m))), _.
    split; [reflexivity |]. split; [reflexivity |].
    assert (Ho : owns (Machine (<[alloc_pick (dom (heap m)) := d]> (heap m))
                (places m) (<[this := Some (alloc_pick (dom (heap m)))]> (wrappers m))
                (S (new_count m)) (delete_log m)) this (alloc_pick (dom (heap m)))).
    { unfold owns. cbn. apply lookup_insert_eq. }
    split; [exact Ho |]. split; [| reflexivity].
    apply gets_owned; [exact Ho |]. cbn. apply lookup_insert_eq.
  - intros U f u. eexists _, (alloc_pick (dom (heap m))), _.
    split; [reflexivity |]. split; [reflexivity |].
    assert (Ho : owns (Machine (<[alloc_pick (dom (heap m)) := f u]> (heap m))
                (places m) (<[this := Some (alloc_pick (dom (heap m)))]> (wrappers m))
                (S (new_count m)) (delete_log m)) this (alloc_pick (dom (heap m)))).
    { unfold owns. cbn. apply lookup_insert_eq. }
    split; [exact Ho |]. split; [| reflexivity].
    apply gets_owned; [exact Ho |]. cbn. apply lookup_insert_eq.
Qed.

(** Claim C5: copy construction builds a copy of the pointee in a new
    allocation, distinct from the source's, leaves the source as it was,
    and later assignments to either wrapper do not reach the other; move
    construction allocates nothing, hands the source's pointer to the new
    wrapper and leaves the source with a null pointer. *)
Theorem copy_and_move_construction m this rhs a v :
  wrappers m !! this = None →
  owns m rhs a →
  heap m !! a = Some v →
  (∃ b m',
     ctor_copy this rhs m = Done () m'
     ∧ heap m !! b = None ∧ b ≠ a
     ∧ owns m' this b ∧ gets m' this b v
     ∧ owns m' rhs a ∧ gets m' rhs a v
     ∧ new_count m' = S (new_count m) ∧ delete_log m' = delete_log m
     ∧ (∀ t, ∃ m'', assign_const this t m' = Done () m''
                  ∧ gets m'' this b t ∧ gets m'' rhs a v)
     ∧ (∀ t, ∃ m'', assign_const rhs t m' = Done () m''
                  ∧ gets m'' rhs a t ∧ gets m'' this b v))
  ∧ (∃ m',
     ctor_move this rhs m = Done () m'
     ∧ owns m' this a ∧ gets m' this a v
     ∧ released m' rhs
     ∧ heap m' = heap m
     ∧ new_count m' = new_count m ∧ delete_log m' = delete_log m).
Proof.
  intros Hthis Hrhs Ha.
  assert (Hne : this ≠ rhs) by (intros ->; unfold owns in Hrhs; congruence).
  pose proof (new_T_fresh m v) as Hfresh.
  set (b := alloc_pick (dom (heap m))) in *.
  assert (Hba : b ≠ a) by congruence.
  split.
  - exists b. eexists. unfold owns in Hrhs.
    split.
    { unfold_run. rewrite Hrhs. cbn. rewrite Ha. cbn. rewrite Ha. reflexivity. }
    fold b.
    assert (Hob : ∀ h, owns (Machine h (places m) (<[this := Some b]> (wrappers m))
                             (S (new_count m)) (delete_log m)) this b).
    { intros h. unfold owns. cbn. apply lookup_insert_eq. }
    assert (Hoa : ∀ h, owns (Machine h (places m) (<[this := Some b]> (wrappers m))
                             (S (new_count m)) (delete_log m)) rhs a).
    { intros h. unfold owns. cbn. by rewrite lookup_insert_ne. }
    split_and!; auto.
    + apply gets_owned; [apply Hob |]. cbn. apply lookup_insert_eq.
    + apply gets_owned; [apply Hoa |]. cbn. by rewrite lookup_insert_ne.
    + intros t. eexists. split.
      { unfold_run. rewrite lookup_insert_eq. cbn. rewrite lookup_insert_eq.
        cbn. rewrite lookup_insert_eq. reflexivity. }
      split.
      * apply gets_owned; [apply Hob |]. cbn. apply lookup_insert_eq.
      * apply gets_owned; [apply Hoa |]. cbn.
        rewrite lookup_insert_ne by done. by rewrite lookup_insert_ne.
    + intros t. eexists. split.
      { unfold_run. rewrite lookup_insert_ne by done. rewrite Hrhs. cbn.
        rewrite lookup_insert_ne by done. rewrite Ha. cbn.
        rewrite lookup_insert_ne by done. rewrite Ha. reflexivity. }
      split.
      * apply gets_owned; [apply Hoa |]. cbn. apply lookup_insert_eq.
      * apply gets_owned; [apply Hob |]. cbn.
        rewrite lookup_insert_ne by done. apply lookup_insert_eq.
  - eexists. unfold owns in Hrhs. split.
    { unfold_run. rewrite Hrhs. cbn. rewrite lookup_insert_ne by done.
      rewrite Hrhs. reflexivity. }
    assert (Ho : owns (Machine (heap m) (places m)
                (<[rhs := None]> (<[this := Some a]> (wrappers m)))
                (new_count m) (delete_log m)) this a).
    { unfold owns. cbn. rewrite lookup_insert_ne by done. apply lookup_insert_eq. }
    split_and!; auto.
    + by apply gets_owned.
    + unfold released. cbn. apply lookup_insert_eq.
Qed.

(** ** Destruction and assignment, case by case *)

Lemma dtor_owned m this a v :
  owns m this a → heap m !! a = Some v →
  dtor this m =
    Done () (Machine (delete a (heap m)) (places m) (delete this (wrappers m))
                     (new_count m) (a :: delete_log m)).
Proof. unfold owns. intros Hw Ha. unfold_run. by run_lookups. Qed.

Lemma dtor_released m this :
  released m this →
  dtor this m =
    Done () (Machine (heap m) (places m) (delete this (wrappers m))
                     (new_count m) (delete_log m)).
Proof. unfold released. intros Hw. unfold_run. by run_lookups. Qed.

Lemma assign_owned m this a old t :
  owns m this a → heap m !! a = Some old →
  assign this t m =
    Done () (Machine (<[a := t]> (heap m)) (places m) (wrappers m)
                     (new_count m) (delete_log m)).
Proof. unfold owns. intros Hw Ha. unfold_run. by run_lookups. Qed.

Lemma assign_released m this t :
  released m this → assign this t m = Fault null_dereference.
Proof. unfold released. intros Hw. unfold_run. by run_lookups. Qed.

Lemma copy_assign_owned m this rhs a old q v :
  owns m this a → heap m !! a = Some old →
  owns m rhs q → heap m !! q = Some v →
  copy_assign this rhs m =
    Done () (Machine (<[a := v]> (heap m)) (places m) (wrappers m)
                     (new_count m) (delete_log m)).
Proof. unfold owns. intros Hw Ha Hr Hq. unfold_run. by run_lookups. Qed.

Lemma copy_assign_released m this rhs q v :
  released m this → owns m rhs q → heap m !! q = Some v →
  copy_assign this rhs m = Fault null_dereference.
Proof. unfold owns, released. intros Hw Hr Hq. unfold_run. by run_lookups. Qed.

Lemma move_assign_owned m this rhs a v q :
  owns m this a → heap m !! a = Some v →
  wrappers m !! rhs = Some q →
  move_assign this rhs m =
    Done () (Machine (delete a (heap m)) (places m)
                     (<[rhs := None]> (<[this := q]> (wrappers m)))
                     (new_count m) (a :: delete_log m)).
Proof.
  unfold owns. intros Hw Ha Hr. unfold_run. run_lookups.
  destruct (decide (this = rhs)) as [-> | Hne].
  - by rewrite lookup_insert_eq.
  - rewrite lookup_insert_ne by done. by run_lookups.
Qed.

Lemma move_assign_released m this rhs q :
  released m this →
  wrappers m !! rhs = Some q →
  move_assign this rhs m =
    Done () (Machine (heap m) (places m)
                     (<[rhs := None]> (<[this := q]> (wrappers m)))
                     (new_count m) (delete_log m)).
Proof.
  unfold released. intros Hw Hr. unfold_run. run_lookups.
  destruct (decide (this = rhs)) as [-> | Hne].
  - by rewrite lookup_insert_eq.
  - rewrite lookup_insert_ne by done. by run_lookups.
Qed.


End wrapper_facts.

(* ===================================================================== *)
(** * Single ownership is an invariant *)
(* ===================================================================== *)

Section invariant.
Context {T : Type} `{Allocator}.
Implicit Types (m : machine T) (this rhs w : wid) (a b : addr) (v t : T).

Lemma size_before_delete (h : gmap addr T) a :
  is_Some (h !! a) → size h = S (size (delete a h)).
Proof.
  intros [v Hv].
  rewrite <- (insert_delete_id h a v) at 1 by done.
  apply map_size_insert_None, lookup_delete_eq.
Qed.

(** [new] followed by the initialisation of a wrapper that did not exist. *)
Lemma single_ownership_alloc m this v :
  single_ownership m →
  wrappers m !! this = None →
  single_ownership
    (Machine (<[alloc_pick (dom (heap m)) := v]> (heap m)) (places m)
             (<[this := Some (alloc_pick (dom (heap m)))]> (wrappers m))
             (S (new_count m)) (delete_log m)).
Proof.
  intros [Hlive Honce Hleak Hbal] Hthis.
  pose proof (new_T_fresh m v) as Hfresh.
  set (b := alloc_pick (dom (heap m))) in *.
  assert (Hnob : ∀ w, ¬ owns m w b).
  { intros w Hw. apply Hlive in Hw as [x Hx]. congruence. }
  split; unfold owns in *; cbn.
  - intros w a. rewrite !lookup_insert.
    repeat case_decide; subst; intros; simplify_eq; eauto.
  - intros w1 w2 a. rewrite !lookup_insert.
    repeat case_decide; subst; intros; simplify_eq; eauto;
      exfalso; eapply Hnob; eauto.
  - intros a. rewrite lookup_insert. case_decide; subst.
    + intros _. exists this. by rewrite lookup_insert_eq.
    + intros [w Hw]%Hleak. exists w. rewrite lookup_insert_ne; [done |].
      intros <-. congruence.
  - rewrite map_size_insert_None by done. lia.
Qed.

(** A write through a pointer to a live allocation. *)
Lemma single_ownership_store m a v :
  single_ownership m →
  is_Some (heap m !! a) →
  single_ownership
    (Machine (<[a := v]> (heap m)) (places m) (wrappers m)
             (new_count m) (delete_log m)).
Proof.
  intros [Hlive Honce Hleak Hbal] Ha.
  assert (Hsame : ∀ x, is_Some (<[a := v]> (heap m) !! x) ↔ is_Some (heap m !! x)).
  { intros x. rewrite lookup_insert. case_decide; subst; [| done].
    split; eauto. }
  split; unfold owns in *; cbn.
  - intros w x Hw. apply Hsame. eauto.
  - eauto.
  - intros x Hx%Hsame. eauto.
  - rewrite map_size_insert_Some by done. done.
Qed.

(** The pointer of [rhs] goes to [this], which held none, and [rhs] is
    left with a null pointer. *)
Lemma single_ownership_transfer m this rhs q :
  single_ownership m →
  (∀ a, ¬ owns m this a) →
  wrappers m !! rhs = Some q →
  single_ownership
    (Machine (heap m) (places m)
             (<[rhs := None]> (<[this := q]> (wrappers m)))
             (new_count m) (delete_log m)).
Proof.
  intros [Hlive Honce Hleak Hbal] Hnone Hrhs.
  split; unfold owns in *; cbn.
  - intros w a. rewrite !lookup_insert.
    repeat case_decide; subst; intros; simplify_eq; eauto.
  - intros w1 w2 a. rewrite !lookup_insert.
    repeat case_decide; subst; intros; simplify_eq; eauto.
    + exfalso. assert (w2 = rhs) by eauto. done.
    + exfalso. assert (w1 = rhs) by eauto. done.
  - intros a [w Hw]%Hleak.
    destruct (decide (w = rhs)) as [-> | Hne].
    + exists this. rewrite lookup_insert_ne.
      * rewrite lookup_insert_eq. congruence.
      * intros ->. by eapply Hnone.
    + exists w. rewrite lookup_insert_ne by done.
      rewrite lookup_insert_ne; [done |]. intros ->. by eapply Hnone.
  - done.
Qed.

(** The owner [this] deletes its allocation. *)
Lemma single_ownership_release m this a :
  single_ownership m →
  owns m this a →
  single_ownership
    (Machine (delete a (heap m)) (places m) (<[this := None]> (wrappers m))
             (new_count m) (a :: delete_log m)).
Proof.
  intros [Hlive Honce Hleak Hbal] Hthis.
  split; unfold owns in *; cbn.
  - intros w x. rewrite lookup_insert. case_decide; subst; [done |].
    intros Hw. rewrite lookup_delete_ne; [eauto |].
    intros <-. eauto.
  - intros w1 w2 x. rewrite !lookup_insert.
    repeat case_decide; subst; intros; simplify_eq; eauto.
  - intros x. rewrite lookup_delete. case_decide; subst.
    + by intros [? ?].
    + intros [w Hw]%Hleak. exists w. rewrite lookup_insert_ne; [done |].
      intros <-. congruence.
  - rewrite Hbal. rewrite (size_before_delete (heap m) a) by eauto. lia.
Qed.

(** The lifetime of a wrapper that holds nothing ends. *)
Lemma single_ownership_end m this :
  single_ownership m →
  (∀ a, ¬ owns m this a) →
  single_ownership
    (Machine (heap m) (places m) (delete this (wrappers m))
             (new_count m) (delete_log m)).
Proof.
  intros [Hlive Honce Hleak Hbal] Hnone.
  split; unfold owns in *; cbn.
  - intros w x. rewrite lookup_delete. case_decide; subst; [done | eauto].
  - intros w1 w2 x. rewrite !lookup_delete.
    repeat case_decide; subst; intros; simplify_eq; eauto.
  - intros x [w Hw]%Hleak. exists w. rewrite lookup_delete_ne; [done |].
    intros <-. by eapply Hnone.
  - done.
Qed.

(** Splits the run in the goal on the lookup, or on the pointer, it
    branches on next; branches that end in a fault are dismissed. *)
Ltac case_run :=
  repeat (first
            [ progress run_lookups
            | match goal with
              | |- context [match ?x !! ?k with _ => _ end] =>
                  let E := fresh "E" in
                  destruct (x !! k) as [?|] eqn:E
              end
            | match goal with
              | |- context [match ?o with Some _ => _ | None => _ end] =>
                  is_var o; destruct o
              end ];
          cbn [heap places wrappers new_count delete_log ref_target ref_qual];
          try solve [intros [=]]).

Lemma not_owns_dead m this : wrappers m !! this = None → ∀ a, ¬ owns m this a.
Proof. unfold owns. congruence. Qed.

Lemma not_owns_released m this : released m this → ∀ a, ¬ owns m this a.
Proof. unfold owns, released. congruence. Qed.

Lemma single_ownership_move_assign m this rhs m' :
  single_ownership m →
  move_assign this rhs m = Done () m' →
  single_ownership m'.
Proof.
  intros Hinv.
  destruct (wrappers m !! rhs) as [q |] eqn:Hrhs; cycle 1.
  { unfold_run. case_run. }
  destruct (wrappers m !! this) as [[a |] |] eqn:Hthis; cycle 2.
  { unfold_run. case_run. }
  - destruct (owned_live m Hinv this a Hthis) as [v Hv].
    rewrite (move_assign_owned m this rhs a v q) by done.
    intros [= <-].
    pose proof (single_ownership_release m this a Hinv Hthis) as Hrel.
    destruct (decide (rhs = this)) as [-> | Hne].
    + rewrite insert_insert_eq. exact Hrel.
    + eapply (single_ownership_transfer _ this rhs q) in Hrel; cbn in *.
      * by rewrite insert_insert_eq in Hrel.
      * apply not_owns_released. unfold released. cbn. apply lookup_insert_eq.
      * by rewrite lookup_insert_ne.
  - rewrite (move_assign_released m this rhs q) by done.
    intros [= <-].
    apply single_ownership_transfer; [done | | done].
    by apply not_owns_released.
Qed.

Lemma single_ownership_dtor m this m' :
  single_ownership m →
  dtor this m = Done () m' →
  single_ownership m'.
Proof.
  intros Hinv.
  destruct (wrappers m !! this) as [[a |] |] eqn:Hthis; cycle 2.
  { unfold_run. case_run. }
  - destruct (owned_live m Hinv this a Hthis) as [v Hv].
    rewrite (dtor_owned m this a v) by done.
    intros [= <-].
    pose proof (single_ownership_release m this a Hinv Hthis) as Hrel.
    eapply (single_ownership_end _ this) in Hrel; cbn in *.
    + by rewrite delete_insert_eq in Hrel.
    + apply not_owns_released. unfold released. cbn. apply lookup_insert_eq.
  - rewrite (dtor_released m this) by done.
    intros [= <-].
    apply single_ownership_end; [done |]. by apply not_owns_released.
Qed.

Lemma single_ownership_run m (o : operation T) m' :
  single_ownership m →
  (∀ w, constructs o = Some w → wrappers m !! w = None) →
  run_operation o m = Done () m' →
  single_ownership m'.
Proof.
  intros Hinv Hnew.
  destruct o as [d this | v this | this rhs | this rhs | this | this a | q this];
    cbn [constructs] in Hnew.
  - unfold_run. intros [= <-]. apply single_ownership_alloc; auto.
  - unfold_run. intros [= <-]. apply single_ownership_alloc; auto.
  - unfold_run. case_run. intros [= <-].
    apply single_ownership_alloc; auto.
  - unfold_run. case_run. intros [= <-].
    apply single_ownership_transfer; auto.
    apply not_owns_dead; auto.
  - by apply single_ownership_dtor.
  - destruct a as [rhs | rhs | t | t]; cbn [run_operation run_assignment].
    + unfold_run. case_run. intros [= <-].
      apply single_ownership_store; eauto.
    + by apply single_ownership_move_assign.
    + unfold_run. case_run. intros [= <-].
      apply single_ownership_store; eauto.
    + unfold_run. case_run. intros [= <-].
      apply single_ownership_store; eauto.
  - destruct q; unfold_run; case_run; by intros [= <-].
Qed.

Lemma run_operation_completes m (o : operation T) :
  single_ownership m →
  (∀ w, w ∈ dereferences o → ∃ a, owns m w a) →
  (∀ w, w ∈ touches o → is_Some (wrappers m !! w)) →
  ∃ m', run_operation o m = Done () m'.
Proof.
  intros Hinv Hd Ht.
  assert (Hown : ∀ w, w ∈ dereferences o →
                 ∃ a v, wrappers m !! w = Some (Some a) ∧ heap m !! a = Some v).
  { intros w [a Ha]%Hd. destruct (owned_live m Hinv w a Ha) as [v Hv]. eauto. }
  clear Hd.
  destruct o as [d this | v this | this rhs | this rhs | this | this a | q this];
    cbn [dereferences touches] in *.
  - eexists. reflexivity.
  - eexists. reflexivity.
  - destruct (Hown rhs) as (a & v & Ha & Hv); [repeat constructor |].
    eexists. unfold_run. run_lookups. reflexivity.
  - destruct (Ht rhs) as [q Hq]; [repeat constructor |].
    unfold_run. run_lookups.
    destruct (<[this:=q]> (wrappers m) !! rhs) eqn:E; [by eexists |].
    rewrite lookup_insert, Hq in E. by case_decide.
  - destruct (Ht this) as [[a |] Hq]; [repeat constructor | |].
    + destruct (owned_live m Hinv this a Hq) as [v Hv].
      eexists. by eapply dtor_owned.
    + eexists. by eapply dtor_released.
  - destruct a as [rhs | rhs | t | t]; cbn [dereferences touches] in *.
    + destruct (Hown this) as (a & v & Ha & Hv); [repeat constructor |].
      destruct (Hown rhs) as (b & x & Hb & Hx); [repeat constructor |].
      eexists. by eapply copy_assign_owned.
    + destruct (Ht rhs) as [q Hq]; [repeat constructor |].
      destruct (Ht this) as [[a |] Ha]; [repeat constructor | |].
      * destruct (owned_live m Hinv this a Ha) as [v Hv].
        eexists. by eapply move_assign_owned.
      * eexists. by eapply move_assign_released.
    + destruct (Hown this) as (a & v & Ha & Hv); [repeat constructor |].
      eexists. by eapply assign_owned.
    + destruct (Hown this) as (a & v & Ha & Hv); [repeat constructor |].
      eexists. by eapply assign_owned.
  - destruct (Hown this) as (a & v & Ha & Hv); [repeat constructor |].
    destruct q; eexists; unfold_run; run_lookups; reflexivity.
Qed.

(** Single ownership among wrappers that are objects of their own, each
    around a [T] that holds no wrapper.  Starting from a memory in which
    wrappers and allocations are matched one to one and every [new] is
    either still allocated or was deleted once, each public operation that
    runs to its end leaves such a memory, and it does run to its end when
    the wrappers it dereferences own a value and the others it uses are
    alive.  Move-assignment first deletes the target's allocation, then
    takes the source's pointer and leaves the source null;
    self-move-assignment deletes the allocation once and leaves the wrapper
    with a null pointer.  A source that lives inside the target's pointee is
    outside this memory model: see [Nested]. *)
Theorem single_ownership_invariant m :
  single_ownership m →
  (∀ (o : operation T) m',
     (∀ w, constructs o = Some w → wrappers m !! w = None) →
     run_operation o m = Done () m' →
     single_ownership m')
  ∧ (∀ o : operation T,
     (∀ w, w ∈ dereferences o → ∃ a, owns m w a) →
     (∀ w, w ∈ touches o → is_Some (wrappers m !! w)) →
     ∃ m', run_operation o m = Done () m')
  ∧ (∀ this rhs a q,
     this ≠ rhs → owns m this a → wrappers m !! rhs = Some q →
     ∃ m1 m',
       destroy this m = Done () m1
       ∧ heap m1 !! a = None ∧ delete_log m1 = a :: delete_log m
       ∧ wrappers m1 !! rhs = Some q
       ∧ move_assign this rhs m = Done () m'
       ∧ wrappers m' !! this = Some q ∧ released m' rhs
       ∧ heap m' = heap m1 ∧ delete_log m' = delete_log m1
       ∧ new_count m' = new_count m)
  ∧ (∀ this a,
     owns m this a →
     ∃ m',
       move_assign this this m = Done () m'
       ∧ released m' this
       ∧ heap m' !! a = None ∧ heap m' = delete a (heap m)
       ∧ delete_log m' = a :: delete_log m
       ∧ single_ownership m').
Proof.
  intros Hinv. split_and!.
  - intros o m'. by apply single_ownership_run.
  - intros o. by apply run_operation_completes.
  - intros this rhs a q Hne Hthis Hrhs.
    destruct (owned_live m Hinv this a Hthis) as [v Hv].
    exists (Machine (delete a (heap m)) (places m) (wrappers m)
                    (new_count m) (a :: delete_log m)),
           (Machine (delete a (heap m)) (places m)
                    (<[rhs := None]> (<[this := q]> (wrappers m)))
                    (new_count m) (a :: delete_log m)).
    split.
    { unfold owns in Hthis. unfold_run. run_lookups. reflexivity. }
    cbn. split_and!; try reflexivity.
    + apply lookup_delete_eq.
    + done.
    + by eapply move_assign_owned.
    + rewrite lookup_insert_ne by done. apply lookup_insert_eq.
    + unfold released. cbn. apply lookup_insert_eq.
  - intros this a Hthis.
    destruct (owned_live m Hinv this a Hthis) as [v Hv].
    eexists. split; [by eapply move_assign_owned |].
    split_and!; try reflexivity.
    + unfold released. cbn. apply lookup_insert_eq.
    + cbn. apply lookup_delete_eq.
    + rewrite insert_insert_eq. by apply single_ownership_release.
Qed.

End invariant.

(* ===================================================================== *)
(** * The wrapper on concrete memories *)
(* ===================================================================== *)

Lemma two_owners_single_ownership : single_ownership two_owners.
Proof.
  split; unfold owns, two_owners; cbn.
  - intros w a. rewrite !lookup_insert, !lookup_singleton.
    repeat case_decide; intros; simplify_eq;
      rewrite ?lookup_insert_eq, ?lookup_singleton_eq; eauto.
  - intros w1 w2 a. rewrite !lookup_insert, !lookup_singleton.
    repeat case_decide; intros; simplify_eq; eauto.
  - intros a. rewrite !lookup_insert, !lookup_singleton.
    repeat case_decide; subst; intros [? ?]; simplify_eq.
    + by exists 1%positive.
    + by exists 2%positive.
  - reflexivity.
Qed.

Lemma ctor_from_on_empty_memory :
  ∃ run, ctor_from (Some Z.of_nat) 1%positive 5 = Some run
       ∧ run empty_machine =
           Done () (Machine {[ 1%positive := 5%Z ]} ∅
                            {[ 1%positive := Some 1%positive ]} 1 []).
Proof. eexists. split; reflexivity. Qed.

Lemma copy_and_move_construction_witness :
  wrappers two_owners !! 3%positive = None
  ∧ owns two_owners 1%positive 1%positive
  ∧ heap two_owners !! 1%positive = Some 10%Z
  ∧ (∃ b m', ctor_copy 3%positive 1%positive two_owners = Done () m'
           ∧ b ≠ 1%positive ∧ gets m' 3%positive b 10%Z)
  ∧ (∃ m', ctor_move 3%positive 1%positive two_owners = Done () m'
         ∧ owns m' 3%positive 1%positive ∧ released m' 1%positive).
Proof.
  split; [reflexivity |]. split; [reflexivity |]. split; [reflexivity |].
  destruct (copy_and_move_construction two_owners 3%positive 1%positive
              1%positive 10%Z eq_refl eq_refl eq_refl)
    as [(b & m1 & Hrun1 & _ & Hb & _ & Hg & _) (m2 & Hrun2 & Ho & _ & Hr & _)].
  split.
  - exists b, m1. auto.
  - exists m2. auto.
Defined.



Lemma single_ownership_invariant_witness :
  single_ownership two_owners
  ∧ ∃ m', move_assign 1%positive 1%positive two_owners = Done () m'
        ∧ released m' 1%positive
        ∧ heap m' !! 1%positive = None
        ∧ single_ownership m'.
Proof.
  split; [exact two_owners_single_ownership |].
  destruct (single_ownership_invariant two_owners two_owners_single_ownership)
    as (_ & _ & _ & Hself).
  destruct (Hself 1%positive 1%positive eq_refl)
    as (m' & Hrun & Hrel & Hgone & _ & _ & Hinv).
  exists m'. auto.
Defined.

(** Claim C4, where the code departs from it: wrapper 1 is built from a
    value and then moved into wrapper 2, so it is in the released state.
    Destroying it deletes nothing and move-assigning to it works, but the
    three assignment operators that go through [assign] dereference its
    null pointer. *)
Theorem moved_from_wrapper_reassignment :
  (default (raise dead_object) (ctor_from (Some id) 1%positive 10%Z);;
   ctor_move 2%positive 1%positive) empty_machine = Done () moved_from_one
  ∧ released moved_from_one 1%positive
  ∧ assign_const 1%positive 7%Z moved_from_one = Fault null_dereference
  ∧ assign_rvalue 1%positive 7%Z moved_from_one = Fault null_dereference
  ∧ copy_assign 1%positive 2%positive moved_from_one = Fault null_dereference
  ∧ (∃ m', move_assign 1%positive 2%positive moved_from_one = Done () m'
         ∧ owns m' 1%positive 1%positive ∧ released m' 2%positive
         ∧ delete_log m' = [])
  ∧ (∃ m', dtor 1%positive moved_from_one = Done () m'
         ∧ heap m' = heap moved_from_one ∧ delete_log m' = []).
Proof.
  split_and!; try reflexivity.
  - eexists. split; [reflexivity |]. split_and!; reflexivity.
  - eexists. split; [reflexivity |]. split_and!; reflexivity.
Qed.

(* ===================================================================== *)
(** * Piercing *)
(* ===================================================================== *)

Section pierce_facts.
Context {T : Type} `{Allocator}.
Implicit Types (m : machine T) (w : wid) (a : addr) (v : T) (c : variant).

Lemma pierce_value m (r : reference) :
  detail.pierce_recursive_wrapper (detail.a_value r) m = Done r m.
Proof. by destruct r as [[] t]. Qed.

Lemma pierce_wrapper m q w a v :
  owns m w a → heap m !! a = Some v →
  detail.pierce_recursive_wrapper (detail.a_wrapper q w) m
    = Done (Reference q (in_heap a)) m.
Proof.
  unfold owns. intros Hw Ha.
  destruct q; cbn [detail.pierce_recursive_wrapper];
    unfold detail.pierce_lvalue_wrapper, detail.pierce_rvalue_wrapper,
      detail.pierce_const_wrapper;
    unfold_run; by run_lookups.
Qed.

Lemma pierce_storage_holds q c m A v :
  active_alternative c = Some A →
  holds c m v →
  ∃ r, pierce_storage q c A m = Done r m
     ∧ ref_qual r = q
     ∧ load r m = Done v m.
Proof.
  unfold holds. intros -> Hv.
  destruct A; cbn [pierce_storage]; rewrite ?pierce_value;
    try (eexists; split_and!; [reflexivity | reflexivity |];
         unfold_run; by rewrite Hv).
  destruct Hv as (a & Hw & Ha).
  rewrite (pierce_wrapper m q _ a v) by done.
  eexists. split_and!; [reflexivity | reflexivity |].
  unfold_run. by rewrite Ha.
Qed.

Lemma access_holds c m A v :
  active_alternative c = Some A →
  holds c m v →
  ∃ r, access (unwrap_type A) c m = Done (Some r) m ∧ load r m = Done v m.
Proof.
  intros Hact Hv.
  destruct (pierce_storage_holds mut_lvalue c m A v Hact Hv) as (r & Hr & _ & Hl).
  exists r. split; [| done].
  unfold access. rewrite Hact. rewrite decide_True by done.
  unfold fmap, M_fmap. by rewrite Hr.
Qed.

Lemma access_absent c m (X : cpp_type) :
  (∀ A, active_alternative c = Some A → unwrap_type A ≠ X) →
  access X c m = Done None m.
Proof.
  intros Hne. unfold access.
  destruct (active_alternative c) as [A |]; [| done].
  by rewrite decide_False by (by apply Hne).
Qed.

Lemma access_present c m m' (X : cpp_type) (r : reference) :
  access X c m = Done (Some r) m' →
  ∃ A, active_alternative c = Some A ∧ unwrap_type A = X.
Proof.
  unfold access.
  destruct (active_alternative c) as [A |]; [| done].
  case_decide; [eauto | done].
Qed.

Lemma apply_visitor_holds {R : Type} (f : cpp_type → T → R) c m A v :
  active_alternative c = Some A →
  holds c m v →
  apply_visitor f c m = Done (f (unwrap_type A) v) m.
Proof.
  intros Hact Hv.
  destruct (pierce_storage_holds const_lvalue c m A v Hact Hv) as (r & Hr & _ & Hl).
  unfold apply_visitor. rewrite Hact.
  unfold mbind, M_bind. by rewrite Hr, Hl.
Qed.

Lemma holds_active c m v : holds c m v → is_Some (active_alternative c).
Proof. unfold holds. destruct (active_alternative c); [eauto | done]. Qed.

(** Claim C7: piercing a value that is not wrapped returns the very
    reference it was given, piercing a wrapper returns a reference of the
    same qualification to the pointee, and so two containers that hold the
    same value under the same discriminant, one with alternatives wrapped
    where the other has them bare, give the same answers to [access] and to
    a visitor. *)
Theorem pierce_is_transparent :
  (∀ m (r : reference),
     detail.pierce_recursive_wrapper (detail.a_value r) m = Done r m)
  ∧ (∀ m q w a v,
     owns m w a → heap m !! a = Some v →
     detail.pierce_recursive_wrapper (detail.a_wrapper q w) m
       = Done (Reference q (in_heap a)) m
     ∧ load (Reference q (in_heap a)) m = Done v m)
  ∧ (∀ c1 c2 m1 m2 v,
     unwrap_type <$> alternatives c1 = unwrap_type <$> alternatives c2 →
     m_which c1 = m_which c2 →
     holds c1 m1 v → holds c2 m2 v →
     (∀ X : cpp_type,
        (access X c1 m1 = Done None m1 ∧ access X c2 m2 = Done None m2)
        ∨ (∃ r1 r2,
             access X c1 m1 = Done (Some r1) m1
             ∧ access X c2 m2 = Done (Some r2) m2
             ∧ load r1 m1 = Done v m1 ∧ load r2 m2 = Done v m2))
     ∧ (∀ (R : Type) (f : cpp_type → T → R),
          ∃ x, apply_visitor f c1 m1 = Done x m1
             ∧ apply_visitor f c2 m2 = Done x m2)).
Proof.
  split_and!.
  - apply pierce_value.
  - intros m q w a v Hw Ha. split; [by eapply pierce_wrapper |].
    unfold_run. by rewrite Ha.
  - intros c1 c2 m1 m2 v Halts Hwhich Hv1 Hv2.
    destruct (holds_active _ _ _ Hv1) as [A1 Ha1].
    destruct (holds_active _ _ _ Hv2) as [A2 Ha2].
    assert (Hsame : unwrap_type A1 = unwrap_type A2).
    { unfold active_alternative in *.
      assert (Hl : (unwrap_type <$> alternatives c1) !! m_which c1
                   = (unwrap_type <$> alternatives c2) !! m_which c2)
        by (by rewrite Halts, Hwhich).
      rewrite !list_lookup_fmap, Ha1, Ha2 in Hl. by injection Hl. }
    split.
    + intros X. destruct (decide (unwrap_type A1 = X)) as [<- | Hne].
      * right.
        destruct (access_holds c1 m1 A1 v Ha1 Hv1) as (r1 & Hr1 & Hl1).
        destruct (access_holds c2 m2 A2 v Ha2 Hv2) as (r2 & Hr2 & Hl2).
        exists r1, r2. rewrite Hsame at 2. done.
      * left. split; apply access_absent; intros A Ha; congruence.
    + intros R f. exists (f (unwrap_type A1) v). split.
      * by apply apply_visitor_holds.
      * rewrite Hsame. by apply apply_visitor_holds.
Qed.

(** Claim C9: a lookup with a type that is not the unwrapped type of the
    active alternative returns a null pointer, without a fault and without
    touching the memory, and it does so even when the type of the active
    alternative converts to the requested one, in whatever tier. *)
Theorem access_mismatch_is_absence c m (X : cpp_type) :
  (∀ A, active_alternative c = Some A → unwrap_type A ≠ X) →
  access X c m = Done None m
  ∧ result (access X c m) = inr None
  ∧ (∀ (converts : cpp_type → cpp_type → bool) A,
       active_alternative c = Some A →
       is_Some (classify converts (unwrap_type A) X) →
       access X c m = Done None m).
Proof.
  intros Hne. rewrite (access_absent c m X Hne). by split_and!.
Qed.

End pierce_facts.

(* ===================================================================== *)
(** * The resolver *)
(* ===================================================================== *)

Section resolver_facts.
Variable converts : cpp_type → cpp_type → bool.
Implicit Types (U A : cpp_type) (t : tier) (alts : list cpp_type) (i k : nat).

Lemma classify_exact U A :
  classify converts U A = Some exact_match ↔ U = unwrap_type A.
Proof.
  unfold classify. case_decide as Heq; [done |].
  split; [| done].
  destruct U, (unwrap_type A); repeat case_match; try discriminate.
Qed.

(** What each tier lets in. *)
Lemma classify_sound U A t :
  classify converts U A = Some t →
  match t with
  | exact_match => U = unwrap_type A
  | safe_widening =>
      U ≠ unwrap_type A ∧ same_category_widening U (unwrap_type A)
  | user_conversion =>
      U ≠ unwrap_type A
      ∧ converts U (unwrap_type A) = true
      ∧ (is_arithmetic U && is_arithmetic (unwrap_type A) = false)
  end.
Proof.
  unfold classify. case_decide as Heq.
  { by intros [= <-]. }
  destruct U as [cu nu bu | | |] eqn:HU, (unwrap_type A) as [ca na ba | | |] eqn:HA;
    cbn [is_arithmetic andb];
    try (destruct (converts _ _) eqn:Hc; intros [= <-]; by split_and!).
  destruct (bool_decide (cu = ca)) eqn:Hcat; cbn [andb]; [| done].
  destruct (bu <=? ba)%N eqn:Hle; intros [= <-].
  apply bool_decide_eq_true in Hcat as ->. apply N.leb_le in Hle.
  split; [done |]. by exists ca, nu, bu, na, ba.
Qed.

(** Between arithmetic types nothing narrows and nothing changes category. *)
Lemma classify_arithmetic cu nu bu ca na ba t :
  classify converts (arithmetic cu nu bu) (arithmetic ca na ba) = Some t →
  cu = ca ∧ (bu ≤ ba)%N.
Proof.
  intros Hc. apply classify_sound in Hc. cbn [unwrap_type] in Hc.
  destruct t.
  - by injection Hc as -> _ ->.
  - destruct Hc as (_ & c & n1 & b1 & n2 & b2 & [= -> -> ->] & [= -> -> ->] & Hle).
    done.
  - by destruct Hc as (_ & _ & ?).
Qed.

Lemma elem_of_candidates_from k U t alts i :
  i ∈ candidates_from converts k U t alts ↔
  ∃ j A, i = k + j ∧ alts !! j = Some A ∧ classify converts U A = Some t.
Proof.
  revert k. induction alts as [| A0 rest IH]; intros k; cbn [candidates_from].
  - split; [by intros ?%elem_of_nil | by intros (j & A & _ & ? & _)].
  - assert (Hrest : i ∈ candidates_from converts (S k) U t rest ↔
              ∃ j A, i = k + S j ∧ rest !! j = Some A
                     ∧ classify converts U A = Some t).
    { rewrite IH. split; intros (j & A & -> & ? & ?); exists j, A;
        split_and!; auto; lia. }
    case_decide as Hc.
    + rewrite elem_of_cons, Hrest. split.
      * intros [-> | (j & A & -> & ? & ?)].
        -- exists 0, A0. split_and!; auto.
        -- exists (S j), A. auto.
      * intros ([| j] & A & -> & Hl & HcA).
        -- left. lia.
        -- right. exists j, A. auto.
    + rewrite Hrest. split.
      * intros (j & A & -> & ? & ?). exists (S j), A. auto.
      * intros ([| j] & A & -> & Hl & HcA).
        -- cbn in Hl. congruence.
        -- exists j, A. auto.
Qed.

Lemma elem_of_candidates U t alts i :
  i ∈ candidates converts U t alts ↔
  ∃ A, alts !! i = Some A ∧ classify converts U A = Some t.
Proof.
  unfold candidates. rewrite elem_of_candidates_from. split.
  - intros (j & A & -> & ? & ?). eauto.
  - intros (A & ? & ?). exists i, A. auto.
Qed.

Lemma deciding_tier_first U alts t l :
  deciding_tier converts U alts = Some (t, l) →
  l = candidates converts U t alts
  ∧ l ≠ []
  ∧ ∀ t', tier_rank t' < tier_rank t → candidates converts U t' alts = [].
Proof.
  unfold deciding_tier.
  destruct (candidates converts U exact_match alts) eqn:E0;
    [destruct (candidates converts U safe_widening alts) eqn:E1;
       [destruct (candidates converts U user_conversion alts) eqn:E2; [done |] |]
    |];
    intros [= <- <-]; (split_and!; [symmetry; assumption | done |]);
    intros []; cbn; intros; (assumption || lia).
Qed.

Lemma resolve_deciding U alts i :
  resolve converts U alts = Some i ↔
  ∃ t, deciding_tier converts U alts = Some (t, [i]).
Proof.
  unfold resolve, deciding_tier.
  destruct (candidates converts U exact_match alts) as [| ? [| ? ?]];
    [destruct (candidates converts U safe_widening alts) as [| ? [| ? ?]];
       [destruct (candidates converts U user_conversion alts) as [| ? [| ? ?]] | |]
    | |];
    split; try (intros [= ->]; eauto); try (intros [t [= <- <-]]; eauto);
    try done; try (by intros [t ?]).
Qed.

Lemma resolve_ambiguous U alts t l :
  deciding_tier converts U alts = Some (t, l) →
  2 ≤ length l →
  resolve converts U alts = None.
Proof.
  unfold resolve, deciding_tier.
  destruct (candidates converts U exact_match alts) as [| ? [| ? ?]];
    [destruct (candidates converts U safe_widening alts) as [| ? [| ? ?]];
       [destruct (candidates converts U user_conversion alts) as [| ? [| ? ?]] | |]
    | |];
    intros [= <- <-]; cbn; intros; (done || lia).
Qed.

Lemma resolve_nothing U alts :
  deciding_tier converts U alts = None → resolve converts U alts = None.
Proof.
  unfold resolve, deciding_tier.
  destruct (candidates converts U exact_match alts) as [| ? [| ? ?]];
    [destruct (candidates converts U safe_widening alts) as [| ? [| ? ?]];
       [destruct (candidates converts U user_conversion alts) as [| ? [| ? ?]] | |]
    | |]; done.
Qed.

End resolver_facts.

(** Claim C2, as the specification words the resolver: a candidate is an
    exact match, a widening inside one arithmetic category, or, in the least
    preferred tier, a declared conversion with a side that is not arithmetic;
    between arithmetic types nothing narrows and nothing changes category.
    An alternative is selected exactly when the first tier that has a
    candidate has that one candidate; when that tier has several, or no tier
    has any, resolution fails.  Over [{int32_t, int64_t}] an [int64_t] selects
    [int64_t] and is no candidate for [int32_t]; neither is a [double]. *)
Theorem resolver_is_strict (converts : cpp_type → cpp_type → bool)
    (U : cpp_type) (alts : list cpp_type) :
  (∀ t i, i ∈ candidates converts U t alts →
     ∃ A, alts !! i = Some A
        ∧ match t with
          | exact_match => U = unwrap_type A
          | safe_widening =>
              U ≠ unwrap_type A ∧ same_category_widening U (unwrap_type A)
          | user_conversion =>
              U ≠ unwrap_type A
              ∧ converts U (unwrap_type A) = true
              ∧ (is_arithmetic U && is_arithmetic (unwrap_type A) = false)
          end)
  ∧ (∀ cu nu bu ca na ba t,
       classify converts (arithmetic cu nu bu) (arithmetic ca na ba) = Some t →
       cu = ca ∧ (bu ≤ ba)%N)
  ∧ (∀ i, resolve converts U alts = Some i ↔
          ∃ t, deciding_tier converts U alts = Some (t, [i]))
  ∧ (∀ t l, deciding_tier converts U alts = Some (t, l) →
       l = candidates converts U t alts
       ∧ l ≠ []
       ∧ ∀ t', tier_rank t' < tier_rank t → candidates converts U t' alts = [])
  ∧ (∀ t l, deciding_tier converts U alts = Some (t, l) →
       2 ≤ length l → resolve converts U alts = None)
  ∧ (deciding_tier converts U alts = None → resolve converts U alts = None)
  ∧ resolve converts int64_t [int32_t; int64_t] = Some 1
  ∧ classify converts int64_t int32_t = None
  ∧ classify converts double_t int32_t = None.
Proof.
  split_and!; try reflexivity.
  - intros t i (A & Hl & Hc)%elem_of_candidates.
    exists A. split; [done |]. by apply classify_sound.
  - apply classify_arithmetic.
  - apply resolve_deciding.
  - apply deciding_tier_first.
  - apply resolve_ambiguous.
  - apply resolve_nothing.
Qed.

(** Claim C2 as stated fails on a declared conversion: over
    [{int32_t, std::string}] a string literal selects [std::string], a
    candidate that is neither an exact match nor a widening inside an
    arithmetic category ([tutorial_basic.cpp], line 36). *)
Lemma resolver_takes_declared_conversion :
  resolve string_from_literal char_pointer [int32_t; std_string] = Some 1
  ∧ candidates string_from_literal char_pointer user_conversion
      [int32_t; std_string] = [1]
  ∧ classify string_from_literal char_pointer std_string = Some user_conversion
  ∧ char_pointer ≠ unwrap_type std_string
  ∧ ¬ same_category_widening char_pointer (unwrap_type std_string).
Proof.
  split_and!; try reflexivity.
  - discriminate.
  - intros (c & n1 & b1 & n2 & b2 & Hu & _). discriminate Hu.
Qed.

(** Ambiguity is a failure, not a choice by position: an [int32_t] offered
    to [{int64_t, int64_t'}], two widenings of one tier. *)
Lemma resolver_rejects_ambiguity :
  deciding_tier no_conversion int32_t
    [int64_t; arithmetic signed_integer "long long" 64] = Some (safe_widening, [0; 1])
  ∧ resolve no_conversion int32_t
      [int64_t; arithmetic signed_integer "long long" 64] = None.
Proof. split; reflexivity. Qed.

(* ===================================================================== *)
(** * Assignment to the container, then access *)
(* ===================================================================== *)

Section container_facts.
Context {T : Type} `{Allocator}.
Variable converts : cpp_type → cpp_type → bool.
Variable convert : cpp_type → cpp_type → T → T.
Implicit Types (m : machine T) (c : variant) (v : T) (U A : cpp_type).

Lemma candidates_exact_absent k U alts :
  U ∉ unwrap_type <$> alts →
  candidates_from converts k U exact_match alts = [].
Proof.
  revert k. induction alts as [| A0 rest IH]; intros k Hnot; [done |].
  cbn [candidates_from]. rewrite fmap_cons, not_elem_of_cons in Hnot.
  destruct Hnot as [Hne Hnot].
  rewrite decide_False by (by rewrite classify_exact).
  by apply IH.
Qed.

Lemma candidates_exact_unique k U alts i A :
  alternatives_ok alts →
  alts !! i = Some A →
  unwrap_type A = U →
  candidates_from converts k U exact_match alts = [k + i].
Proof.
  unfold alternatives_ok.
  revert k i. induction alts as [| A0 rest IH]; intros k i Hok Hl HU; [done |].
  rewrite fmap_cons, NoDup_cons in Hok. destruct Hok as [Hnot Hok].
  cbn [candidates_from]. destruct i as [| i]; cbn in Hl.
  - injection Hl as ->.
    rewrite decide_True by (by rewrite classify_exact).
    rewrite candidates_exact_absent by (by rewrite <- HU).
    f_equal. lia.
  - rewrite decide_False.
    + rewrite (IH (S k) i) by done. f_equal. lia.
    + rewrite classify_exact. intros ->. apply Hnot.
      rewrite <- HU. apply list_elem_of_fmap. exists A.
      split; [done |]. by eapply list_elem_of_lookup_2.
Qed.

Lemma resolve_exact U alts i A :
  alternatives_ok alts →
  alts !! i = Some A →
  unwrap_type A = U →
  resolve converts U alts = Some i.
Proof.
  intros Hok Hl HU. unfold resolve, candidates.
  by rewrite (candidates_exact_unique 0 U alts i A).
Qed.

Lemma assign_value_exact c m U v i A v0 :
  alternatives_ok (alternatives c) →
  alternatives c !! i = Some A →
  unwrap_type A = U →
  holds c m v0 →
  ∃ run m',
    assign_value converts convert c U v = Some run
    ∧ run m = Done (Variant (alternatives c) i (storage_place c) (storage_wrapper c)) m'
    ∧ holds (Variant (alternatives c) i (storage_place c) (storage_wrapper c)) m' v.
Proof.
  intros Hok Hl HU Hv0.
  destruct c as [alts which sp sw]. cbn [alternatives storage_place storage_wrapper] in *.
  unfold assign_value. cbn [alternatives m_which storage_place storage_wrapper].
  rewrite (resolve_exact U alts i A) by done.
  cbn [mbind option_bind]. rewrite Hl. cbn [mbind option_bind].
  rewrite (decide_True (P := U = unwrap_type A)) by done.
  unfold holds, active_alternative in *. cbn [alternatives m_which storage_place storage_wrapper] in *.
  rewrite Hl.
  destruct (decide (i = which)) as [-> | Hne].
  - rewrite Hl in Hv0. clear Hok HU.
    destruct A; try destruct Hv0 as (a & Hw & Ha);
      eexists _, _; (split; [reflexivity |]);
      unfold_run; run_lookups; (split; [reflexivity |]);
      cbn [heap places wrappers];
      first [ apply lookup_insert_eq
            | eexists; split;
              [first [eassumption | apply lookup_insert_eq] | apply lookup_insert_eq] ].
  - destruct (alts !! which) as [B |] eqn:HB; [| done]. clear Hok HU Hl.
    assert (Hdestroyed : ∃ m1, destroy_active (Variant alts which sp sw) m = Done () m1).
    { unfold destroy_active, active_alternative.
      cbn [alternatives m_which storage_place storage_wrapper]. rewrite HB.
      destruct B; try destruct Hv0 as (a & Hw & Ha);
        unfold_run; run_lookups; eauto. }
    destruct Hdestroyed as [m1 Hm1].
    destruct A; eexists _, _; (split; [reflexivity |]);
      unfold construct_alternative, mbind, M_bind;
      cbn [alternatives m_which storage_place storage_wrapper];
      rewrite Hm1; unfold_run; (split; [reflexivity |]);
      cbn [heap places wrappers];
      first [ apply lookup_insert_eq
            | eexists; split;
              [first [eassumption | apply lookup_insert_eq] | apply lookup_insert_eq] ].
Qed.

(** Claim C1: assigning a value [v] whose type [U] is one of the
    alternatives, up to unwrapping, of a container with a well-formed list of
    alternatives selects that alternative; afterwards [access<U>] returns a
    non-null pointer through which [v] is read, and [access<X>] for any other
    type [X] returns the null pointer. *)
Theorem access_round_trip c m U v i A v0 :
  alternatives_ok (alternatives c) →
  alternatives c !! i = Some A →
  unwrap_type A = U →
  holds c m v0 →
  ∃ run c' m',
    assign_value converts convert c U v = Some run
    ∧ run m = Done c' m'
    ∧ alternatives c' = alternatives c ∧ m_which c' = i
    ∧ (∃ r, access U c' m' = Done (Some r) m' ∧ load r m' = Done v m')
    ∧ (∀ X, X ≠ U → access X c' m' = Done None m').
Proof.
  intros Hok Hl HU Hv0.
  destruct (assign_value_exact c m U v i A v0 Hok Hl HU Hv0)
    as (run & m' & Hrun & Hdone & Hv).
  exists run, (Variant (alternatives c) i (storage_place c) (storage_wrapper c)), m'.
  assert (Hact : active_alternative
            (Variant (alternatives c) i (storage_place c) (storage_wrapper c)) = Some A)
    by done.
  split_and!; [done | done | done | done | |].
  - rewrite <- HU. by apply access_holds.
  - intros X HX. apply access_absent. intros B HB. congruence.
Qed.

End container_facts.

(* ===================================================================== *)
(** * The container on concrete memories *)
(* ===================================================================== *)

Lemma tutorial_alternatives_ok : alternatives_ok (alternatives tutorial_container).
Proof. unfold alternatives_ok. by apply (bool_decide_unpack _). Qed.

Lemma access_round_trip_witness :
  alternatives_ok (alternatives tutorial_container)
  ∧ alternatives tutorial_container !! 1 = Some std_string
  ∧ unwrap_type std_string = std_string
  ∧ holds tutorial_container tutorial_memory (inl 0%Z)
  ∧ ∃ run c' m',
      assign_value no_conversion same_representation tutorial_container
        std_string (inr "bar") = Some run
      ∧ run tutorial_memory = Done c' m'
      ∧ m_which c' = 1
      ∧ (∃ r, access std_string c' m' = Done (Some r) m'
            ∧ load r m' = Done (inr "bar") m')
      ∧ access int_t c' m' = Done None m'.
Proof.
  split; [exact tutorial_alternatives_ok |].
  split; [reflexivity |]. split; [reflexivity |]. split; [reflexivity |].
  destruct (access_round_trip (T := Z + string) no_conversion same_representation
              tutorial_container tutorial_memory std_string (inr "bar") 1
              std_string (inl 0%Z) tutorial_alternatives_ok eq_refl eq_refl eq_refl)
    as (run & c' & m' & Hrun & Hdone & _ & Hwhich & Hacc & Hnone).
  exists run, c', m'.
  split_and!; [exact Hrun | exact Hdone | exact Hwhich | exact Hacc |].
  apply Hnone. discriminate.
Defined.

(** The assertions of [test_one] ([tutorial_basic.cpp], lines 75-85). *)
Lemma tutorial_test_one :
  ∃ run1 c1 m1 run2 c2 m2 r_int r_string,
    assign_value string_from_literal same_representation tutorial_container
      int_t (inl 6%Z) = Some run1
    ∧ run1 tutorial_memory = Done c1 m1
    ∧ access int_t c1 m1 = Done (Some r_int) m1
    ∧ access (T := Z + string) std_string c1 m1 = Done None m1
    ∧ load r_int m1 = Done (inl 6%Z) m1
    ∧ assign_value string_from_literal same_representation c1
        char_pointer (inr "bar") = Some run2
    ∧ run2 m1 = Done c2 m2
    ∧ access std_string c2 m2 = Done (Some r_string) m2
    ∧ access (T := Z + string) int_t c2 m2 = Done None m2
    ∧ load r_string m2 = Done (inr "bar") m2.
Proof. do 8 eexists. split_and!; reflexivity. Qed.

Lemma pierce_is_transparent_witness :
  holds direct_container direct_memory 42%Z
  ∧ holds wrapped_container wrapped_memory 42%Z
  ∧ (∃ r1 r2,
       access xml_node direct_container direct_memory = Done (Some r1) direct_memory
       ∧ access xml_node wrapped_container wrapped_memory
           = Done (Some r2) wrapped_memory
       ∧ load r1 direct_memory = Done 42%Z direct_memory
       ∧ load r2 wrapped_memory = Done 42%Z wrapped_memory)
  ∧ (∃ x, apply_visitor (λ _ v, Z.succ v) direct_container direct_memory
            = Done x direct_memory
        ∧ apply_visitor (λ _ v, Z.succ v) wrapped_container wrapped_memory
            = Done x wrapped_memory).
Proof.
  assert (Hd : holds direct_container direct_memory 42%Z) by reflexivity.
  assert (Hw : holds wrapped_container wrapped_memory 42%Z).
  { exists 1%positive. split; reflexivity. }
  destruct (pierce_is_transparent (T := Z)) as (_ & _ & Hsame).
  destruct (Hsame direct_container wrapped_container direct_memory wrapped_memory
              42%Z eq_refl eq_refl Hd Hw) as [Hacc Hvis].
  split_and!; [exact Hd | exact Hw | |].
  - destruct (Hacc xml_node) as [[Hnone _] | Hsome]; [| exact Hsome].
    vm_compute in Hnone. discriminate Hnone.
  - apply Hvis.
Defined.

Lemma access_mismatch_is_absence_witness :
  active_alternative integer_container = Some int32_t
  ∧ classify no_conversion int32_t int64_t = Some safe_widening
  ∧ access int64_t integer_container integer_memory = Done None integer_memory.
Proof.
  split; [reflexivity |]. split; [reflexivity |].
  apply (access_mismatch_is_absence integer_container integer_memory int64_t).
  intros A [= <-]. discriminate.
Defined.

Lemma resolver_is_strict_witness :
  deciding_tier no_conversion int64_t [int32_t; int64_t] = Some (exact_match, [1])
  ∧ resolve no_conversion int64_t [int32_t; int64_t] = Some 1.
Proof.
  split; [reflexivity |].
  destruct (resolver_is_strict no_conversion int64_t [int32_t; int64_t])
    as (_ & _ & Hiff & _).
  apply Hiff. by exists exact_match.
Defined.

(* ===================================================================== *)
(** * Further properties of the traits *)
(* ===================================================================== *)

(** Wrapping is invisible after unwrapping: whichever branch
    [wrap_if_throwing_move] takes, [unwrap_type] of its result is
    [unwrap_type] of the type it was given. *)
Theorem unwrap_after_wrap (t r : cpp_type) :
  wrap_if_throwing_move t = Some r →
  unwrap_type r = unwrap_type t.
Proof.
  unfold wrap_if_throwing_move. case_match; [| done].
  destruct (is_nothrow_move_constructible t) eqn:Hm; intros [= <-]; [done |].
  by destruct t.
Qed.

Lemma unwrap_after_wrap_witness :
  wrap_if_throwing_move throwing_mover = Some (recursive_wrapper throwing_mover)
  ∧ unwrap_type (recursive_wrapper throwing_mover) = unwrap_type throwing_mover.
Proof.
  split; [reflexivity |].
  apply (unwrap_after_wrap throwing_mover). reflexivity.
Defined.

(** [wrap_if_throwing_move] is idempotent and never puts a wrapper around a
    wrapper: its result is mapped to itself, and a type that is already a
    wrapper is returned as it is. *)
Theorem wrap_if_throwing_move_idempotent (t r : cpp_type) :
  wrap_if_throwing_move t = Some r →
  wrap_if_throwing_move r = Some r
  ∧ (∀ u, t = recursive_wrapper u → r = t).
Proof.
  unfold wrap_if_throwing_move.
  destruct (is_nothrow_destructible t) eqn:Hd, (is_reference t) eqn:Hr;
    cbn [andb negb]; try done.
  destruct (is_nothrow_move_constructible t) eqn:Hm; intros [= <-].
  - rewrite Hd, Hr, Hm. cbn. split; auto.
  - cbn. split; [done |]. intros u ->. discriminate Hm.
Qed.

Lemma wrap_if_throwing_move_idempotent_witness :
  wrap_if_throwing_move (recursive_wrapper xml_node)
    = Some (recursive_wrapper xml_node)
  ∧ wrap_if_throwing_move throwing_mover = Some (recursive_wrapper throwing_mover)
  ∧ wrap_if_throwing_move (recursive_wrapper throwing_mover)
    = Some (recursive_wrapper throwing_mover).
Proof.
  split; [reflexivity |]. split; [reflexivity |].
  apply (wrap_if_throwing_move_idempotent throwing_mover). reflexivity.
Defined.

(* ===================================================================== *)
(** * Further properties of recursive_wrapper<T> *)
(* ===================================================================== *)

(** Splits the run in the goal on the lookup, or on the pointer, it branches
    on next; a branch whose equation cannot hold is dismissed. *)
Ltac split_run :=
  repeat (first
            [ progress run_lookups
            | match goal with
              | |- context [match ?x !! ?k with _ => _ end] =>
                  let E := fresh "E" in
                  destruct (x !! k) as [?|] eqn:E
              end
            | match goal with
              | |- context [match ?o with Some _ => _ | None => _ end] =>
                  is_var o; destruct o
              end ];
          cbn [heap places wrappers new_count delete_log ref_target ref_qual];
          try solve [intros [=]]).

(** Decides a lookup in a map built with inserts and deletes. *)
Ltac map_cases :=
  repeat first [rewrite lookup_insert | rewrite lookup_delete];
  repeat case_decide; simplify_eq; try done.

Section wrapper_programs.
Context {T : Type} `{Allocator}.
Implicit Types (m : machine T) (this rhs tmp w : wid) (a b : addr) (v t : T).

Lemma ctor_move_live m this rhs q :
  wrappers m !! rhs = Some q →
  ctor_move this rhs m =
    Done () (Machine (heap m) (places m)
                     (<[rhs := None]> (<[this := q]> (wrappers m)))
                     (new_count m) (delete_log m)).
Proof.
  intros Hr. unfold_run. run_lookups.
  destruct (<[this:=q]> (wrappers m) !! rhs) eqn:E; [done |].
  rewrite lookup_insert, Hr in E. by case_decide.
Qed.

(** Reading through a released wrapper dereferences the null pointer: the
    three [get()], the copy constructor and the copy-assignment taking it
    as their source, and [pierce_recursive_wrapper] in its three
    qualifications. *)
Theorem released_wrapper_cannot_be_read m w :
  released m w →
  get w m = Fault null_dereference
  ∧ get_const w m = Fault null_dereference
  ∧ get_rvalue w m = Fault null_dereference
  ∧ (∀ this, ctor_copy this w m = Fault null_dereference)
  ∧ (∀ this, copy_assign this w m = Fault null_dereference)
  ∧ (∀ q, detail.pierce_recursive_wrapper (detail.a_wrapper q w) m
          = Fault null_dereference).
Proof.
  unfold released. intros Hw.
  split_and!; try intros x; try destruct x;
    cbn [detail.pierce_recursive_wrapper];
    unfold detail.pierce_lvalue_wrapper, detail.pierce_rvalue_wrapper,
      detail.pierce_const_wrapper;
    unfold_run; by run_lookups.
Qed.

(** Self copy-assignment [a = a] of a wrapper that owns a value changes
    nothing at all. *)
Theorem self_copy_assignment m this a v :
  owns m this a →
  heap m !! a = Some v →
  copy_assign this this m = Done () m.
Proof.
  intros Hw Ha. rewrite (copy_assign_owned m this this a v a v) by done.
  rewrite insert_id by done. by destruct m.
Qed.

(** A wrapper built from a value and then destroyed leaves the heap and the
    wrappers as they were: its one allocation was made at an unused address
    and deleted once. *)
Theorem construct_then_destroy {U : Type} (f : U → T) (u : U) m this :
  wrappers m !! this = None →
  ∃ run a m1 m2,
    ctor_from (Some f) this u = Some run
    ∧ run m = Done () m1
    ∧ heap m !! a = None ∧ owns m1 this a ∧ heap m1 !! a = Some (f u)
    ∧ dtor this m1 = Done () m2
    ∧ heap m2 = heap m ∧ wrappers m2 = wrappers m ∧ places m2 = places m
    ∧ new_count m2 = S (new_count m)
    ∧ delete_log m2 = a :: delete_log m.
Proof.
  intros Hthis. pose proof (new_T_fresh m (f u)) as Hfresh.
  set (a := alloc_pick (dom (heap m))) in *.
  set (m1 := Machine (<[a := f u]> (heap m)) (places m)
                     (<[this := Some a]> (wrappers m))
                     (S (new_count m)) (delete_log m)).
  assert (Ho : owns m1 this a) by apply lookup_insert_eq.
  assert (Hv : heap m1 !! a = Some (f u)) by apply lookup_insert_eq.
  eexists _, a, m1, _.
  split_and!; [reflexivity | reflexivity | done | done | done
              | by apply (dtor_owned m1 this a (f u)) | | | | |]; cbn.
  - rewrite delete_insert_eq. by apply delete_id.
  - rewrite delete_insert_eq. by apply delete_id.
  - done.
  - done.
  - done.
Qed.

(** Moving a wrapper out and moving it back restores it: after
    [recursive_wrapper w2(std::move(w1)); w1 = std::move(w2);] the wrapper
    [w1] owns its allocation again with the value untouched, [w2] is
    released, and nothing was allocated or deleted. *)
Theorem move_out_and_back m (w1 w2 : wid) (p : addr) v :
  wrappers m !! w2 = None →
  owns m w1 p →
  heap m !! p = Some v →
  ∃ m', (ctor_move w2 w1;; move_assign w1 w2) m = Done () m'
      ∧ owns m' w1 p ∧ gets m' w1 p v ∧ released m' w2
      ∧ heap m' = heap m
      ∧ new_count m' = new_count m ∧ delete_log m' = delete_log m
      ∧ (∀ w, w ≠ w2 → wrappers m' !! w = wrappers m !! w).
Proof.
  intros Hb Ha Hp.
  assert (Hne : w1 ≠ w2) by (intros ->; unfold owns in Ha; congruence).
  eexists. split.
  { unfold mbind at 1, M_bind at 1.
    rewrite (ctor_move_live m w2 w1 (Some p)) by done.
    apply move_assign_released.
    - unfold released. cbn. apply lookup_insert_eq.
    - cbn. rewrite lookup_insert_ne by done. apply lookup_insert_eq. }
  assert (Ho : ∀ h n l, owns (Machine h (places m)
      (<[w2 := None]> (<[w1 := Some p]> (<[w1 := None]> (<[w2 := Some p]> (wrappers m)))))
      n l) w1 p).
  { intros. unfold owns. cbn. by map_cases. }
  split_and!; try reflexivity.
  - apply Ho.
  - apply gets_owned; [apply Ho | done].
  - unfold released. cbn. by map_cases.
  - intros w Hw. cbn. map_cases; by rewrite Ha.
Qed.

(** Moving a wrapper into a new one and destroying the source, as a
    container does when it grows: the new wrapper owns the allocation with
    the value untouched, the source is gone, and nothing was allocated or
    deleted. *)
Theorem move_then_destroy_source m this rhs a v :
  wrappers m !! this = None →
  owns m rhs a →
  heap m !! a = Some v →
  ∃ m', (ctor_move this rhs;; dtor rhs) m = Done () m'
      ∧ owns m' this a ∧ gets m' this a v
      ∧ wrappers m' !! rhs = None
      ∧ heap m' = heap m
      ∧ new_count m' = new_count m ∧ delete_log m' = delete_log m.
Proof.
  intros Hthis Hrhs Ha.
  assert (Hne : this ≠ rhs) by (intros ->; unfold owns in Hrhs; congruence).
  eexists. split.
  { unfold mbind at 1, M_bind at 1.
    rewrite (ctor_move_live m this rhs (Some a)) by done.
    apply dtor_released. unfold released. cbn. apply lookup_insert_eq. }
  assert (Ho : ∀ h n l, owns (Machine h (places m)
      (delete rhs (<[rhs := None]> (<[this := Some a]> (wrappers m)))) n l) this a).
  { intros. unfold owns. cbn. by map_cases. }
  split_and!; try reflexivity.
  - apply Ho.
  - apply gets_owned; [apply Ho | done].
  - cbn. by map_cases.
Qed.

End wrapper_programs.

Section wrapper_safety.
Context {T : Type} `{Allocator}.
Implicit Types (m : machine T) (this rhs tmp w : wid) (a b : addr) (v t : T).

Lemma alloc_pick_unused m : heap m !! alloc_pick (dom (heap m)) = None.
Proof. apply not_elem_of_dom, alloc_pick_fresh. Qed.

Lemma run_seq {A B : Type} (c : M T A) (k : A → M T B) m x m1 :
  c m = Done x m1 → (c ≫= k) m = k x m1.
Proof. intros Hc. unfold mbind, M_bind. by rewrite Hc. Qed.

(** Exchanging two wrappers with moves only, as [std::swap] does, exchanges
    their pointers, whether they own a value or are released; the heap is
    not touched, nothing is allocated or deleted, and no run faults. *)
Theorem swap_by_moves_exchanges m (x y : wid) tmp (px py : option addr) :
  wrappers m !! tmp = None →
  wrappers m !! x = Some px →
  wrappers m !! y = Some py →
  x ≠ y →
  ∃ m', swap_by_moves x y tmp m = Done () m'
      ∧ wrappers m' = <[y := px]> (<[x := py]> (wrappers m))
      ∧ heap m' = heap m ∧ places m' = places m
      ∧ new_count m' = new_count m ∧ delete_log m' = delete_log m.
Proof.
  intros Htmp Hx Hy Hne.
  assert (Hxt : x ≠ tmp) by congruence.
  assert (Hyt : y ≠ tmp) by congruence.
  eexists. split.
  { unfold swap_by_moves.
    rewrite (run_seq _ _ _ _ _ (ctor_move_live m tmp x px Hx)). cbn beta.
    erewrite run_seq; cycle 1.
    { apply (move_assign_released _ x y py).
      - unfold released. cbn. by map_cases.
      - cbn. by map_cases. }
    cbn beta. erewrite run_seq; cycle 1.
    { apply (move_assign_released _ y tmp px).
      - unfold released. cbn. by map_cases.
      - cbn. by map_cases. }
    cbn beta. apply dtor_released. unfold released. cbn. by map_cases. }
  split_and!; try reflexivity.
  cbn. apply map_eq. intros w. map_cases.
Qed.


End wrapper_safety.

(* ===================================================================== *)
(** * The two ways to format a container agree *)
(* ===================================================================== *)

Section tutorial_facts.
Context `{Allocator}.
Variable to_string : Z → string.
Implicit Types (m : machine (Z + string)) (c : variant) (v : Z + string).

(** On a container whose active alternative is an [int] or a
    [std::string], [format_variant] never reaches its assertion and returns
    what the visitor [formatter] returns through [apply_visitor]: the string
    itself, or the integer between brackets. *)
Theorem format_variant_agrees c m A v :
  active_alternative c = Some A →
  holds c m v →
  has_type (unwrap_type A) v →
  format_variant to_string c m
    = Done (Some (formatter to_string (unwrap_type A) v)) m
  ∧ apply_visitor (formatter to_string) c m
    = Done (formatter to_string (unwrap_type A) v) m.
Proof.
  intros Hact Hv Hty. split; [| by apply apply_visitor_holds].
  destruct (access_holds c m A v Hact Hv) as (r & Hr & Hl).
  unfold format_variant. destruct v as [i | s]; cbn [has_type formatter] in *.
  - rewrite Hty in Hr. rewrite (run_seq _ _ _ _ _ Hr). cbn beta iota.
    by rewrite (run_seq _ _ _ _ _ Hl).
  - rewrite (run_seq _ _ m None m).
    + cbn beta iota. rewrite Hty in Hr. rewrite (run_seq _ _ _ _ _ Hr).
      cbn beta iota. by rewrite (run_seq _ _ _ _ _ Hl).
    + apply access_absent. intros B HB. rewrite Hact in HB.
      injection HB as <-. by rewrite Hty.
Qed.

(** When the active alternative is neither an [int] nor a [std::string],
    as after a third type was added to the container, [format_variant] runs
    into its assertion: both lookups come back null. *)
Theorem format_variant_unsupported c m A :
  active_alternative c = Some A →
  unwrap_type A ≠ int_t →
  unwrap_type A ≠ std_string →
  format_variant to_string c m = Done None m.
Proof.
  intros Hact Hint Hstr. unfold format_variant.
  rewrite (run_seq _ _ m None m).
  - cbn beta iota. rewrite (run_seq _ _ m None m); [done |].
    apply access_absent. intros B HB. congruence.
  - apply access_absent. intros B HB. congruence.
Qed.

End tutorial_facts.

(* ===================================================================== *)
(** * The further properties on concrete memories *)
(* ===================================================================== *)

Lemma released_wrapper_cannot_be_read_witness :
  released moved_from_one 1%positive
  ∧ get 1%positive moved_from_one = Fault null_dereference
  ∧ ctor_copy 3%positive 1%positive moved_from_one = Fault null_dereference.
Proof.
  split; [reflexivity |].
  destruct (released_wrapper_cannot_be_read moved_from_one 1%positive eq_refl)
    as (Hget & _ & _ & Hcopy & _).
  split; [exact Hget | apply Hcopy].
Defined.

Lemma self_copy_assignment_witness :
  owns two_owners 1%positive 1%positive
  ∧ heap two_owners !! 1%positive = Some 10%Z
  ∧ copy_assign 1%positive 1%positive two_owners = Done () two_owners.
Proof.
  split; [reflexivity |]. split; [reflexivity |].
  apply (self_copy_assignment two_owners 1%positive 1%positive 10%Z);
    reflexivity.
Defined.

Lemma construct_then_destroy_witness :
  wrappers two_owners !! 3%positive = None
  ∧ ∃ run m1 m2,
      ctor_from (Some Z.of_nat) 3%positive 5 = Some run
      ∧ run two_owners = Done () m1
      ∧ dtor 3%positive m1 = Done () m2
      ∧ heap m2 = heap two_owners ∧ wrappers m2 = wrappers two_owners.
Proof.
  split; [reflexivity |].
  destruct (construct_then_destroy Z.of_nat 5 two_owners 3%positive eq_refl)
    as (run & a & m1 & m2 & Hc & Hrun & _ & _ & _ & Hd & Hh & Hw & _).
  exists run, m1, m2. auto.
Defined.

Lemma move_out_and_back_witness :
  wrappers two_owners !! 3%positive = None
  ∧ owns two_owners 1%positive 1%positive
  ∧ heap two_owners !! 1%positive = Some 10%Z
  ∧ ∃ m', (ctor_move 3%positive 1%positive;;
           move_assign 1%positive 3%positive) two_owners = Done () m'
        ∧ owns m' 1%positive 1%positive ∧ released m' 3%positive.
Proof.
  split; [reflexivity |]. split; [reflexivity |]. split; [reflexivity |].
  destruct (move_out_and_back two_owners 1%positive 3%positive 1%positive 10%Z
              eq_refl eq_refl eq_refl) as (m' & Hrun & Ho & _ & Hr & _).
  exists m'. auto.
Defined.

Lemma move_then_destroy_source_witness :
  wrappers two_owners !! 3%positive = None
  ∧ owns two_owners 1%positive 1%positive
  ∧ heap two_owners !! 1%positive = Some 10%Z
  ∧ ∃ m', (ctor_move 3%positive 1%positive;; dtor 1%positive) two_owners
            = Done () m'
        ∧ owns m' 3%positive 1%positive ∧ wrappers m' !! 1%positive = None.
Proof.
  split; [reflexivity |]. split; [reflexivity |]. split; [reflexivity |].
  destruct (move_then_destroy_source two_owners 3%positive 1%positive 1%positive
              10%Z eq_refl eq_refl eq_refl) as (m' & Hrun & Ho & _ & Hr & _).
  exists m'. auto.
Defined.

Lemma swap_by_moves_exchanges_witness :
  wrappers two_owners !! 3%positive = None
  ∧ wrappers two_owners !! 1%positive = Some (Some 1%positive)
  ∧ wrappers two_owners !! 2%positive = Some (Some 2%positive)
  ∧ ∃ m', swap_by_moves 1%positive 2%positive 3%positive two_owners = Done () m'
        ∧ wrappers m' = <[2%positive := Some 1%positive]>
                          (<[1%positive := Some 2%positive]> (wrappers two_owners))
        ∧ heap m' = heap two_owners.
Proof.
  split; [reflexivity |]. split; [reflexivity |]. split; [reflexivity |].
  destruct (swap_by_moves_exchanges two_owners 1%positive 2%positive 3%positive
              (Some 1%positive) (Some 2%positive) eq_refl eq_refl eq_refl)
    as (m' & Hrun & Hw & Hh & _); [discriminate |].
  exists m'. auto.
Defined.


Lemma format_variant_agrees_witness :
  active_alternative tutorial_container = Some int_t
  ∧ holds tutorial_container tutorial_memory (inl 0%Z)
  ∧ has_type int_t (inl 0%Z)
  ∧ format_variant pretty tutorial_container tutorial_memory
    = Done (Some "[0]") tutorial_memory
  ∧ apply_visitor (formatter pretty) tutorial_container tutorial_memory
    = Done "[0]" tutorial_memory.
Proof.
  split; [reflexivity |]. split; [reflexivity |]. split; [reflexivity |].
  exact (format_variant_agrees pretty tutorial_container tutorial_memory int_t
           (inl 0%Z) eq_refl eq_refl eq_refl).
Defined.

Lemma format_variant_unsupported_witness :
  active_alternative direct_container = Some xml_node
  ∧ format_variant pretty direct_container
      (Machine ∅ {[ 1%positive := inl 42%Z ]} ∅ 0 [])
    = Done None (Machine ∅ {[ 1%positive := inl 42%Z ]} ∅ 0 []).
Proof.
  split; [reflexivity |].
  apply (format_variant_unsupported pretty direct_container _ xml_node);
    [reflexivity | discriminate | discriminate].
Defined.

Section wrapper_sequences.
Context {T : Type} `{Allocator}.
Implicit Types (m : machine T) (this rhs w : wid) (a b : addr) (v t : T).

(** A copy that is made and then destroyed leaves no trace: the source
    still owns its allocation with its value, and the heap and the wrappers
    are what they were; the copy's allocation was made at an unused address
    and deleted once. *)
Theorem copy_then_destroy m this rhs a v :
  wrappers m !! this = None →
  owns m rhs a →
  heap m !! a = Some v →
  ∃ b m', (ctor_copy this rhs;; dtor this) m = Done () m'
        ∧ heap m !! b = None
        ∧ heap m' = heap m ∧ wrappers m' = wrappers m
        ∧ new_count m' = S (new_count m)
        ∧ delete_log m' = b :: delete_log m.
Proof.
  intros Hthis Hrhs Ha. unfold owns in Hrhs.
  pose proof (alloc_pick_unused m) as Hfresh.
  set (b := alloc_pick (dom (heap m))) in *.
  assert (Hcopy : ctor_copy this rhs m =
            Done () (Machine (<[b := v]> (heap m)) (places m)
                             (<[this := Some b]> (wrappers m))
                             (S (new_count m)) (delete_log m))).
  { unfold_run. by run_lookups. }
  exists b. eexists. split.
  { rewrite (run_seq _ _ _ _ _ Hcopy). cbn beta.
    apply (dtor_owned _ this b v); [apply lookup_insert_eq | apply lookup_insert_eq]. }
  cbn. split_and!; try done.
  - rewrite delete_insert_eq. by apply delete_id.
  - rewrite delete_insert_eq. by apply delete_id.
Qed.

(** Of two assignments in a row only the second is seen: assigning [t1] and
    then [t2] to a wrapper that owns a value leaves exactly the memory that
    assigning [t2] alone leaves. *)
Theorem assignment_overwrites m this a old (t1 t2 : T) :
  owns m this a →
  heap m !! a = Some old →
  ∃ m', (assign_const this t1;; assign_rvalue this t2) m = Done () m'
      ∧ assign_rvalue this t2 m = Done () m'
      ∧ gets m' this a t2.
Proof.
  intros Hw Ha. unfold assign_const, assign_rvalue.
  eexists. split_and!.
  - rewrite (run_seq _ _ _ _ _ (assign_owned m this a old t1 Hw Ha)). cbn beta.
    apply (assign_owned _ this a t1); [exact Hw | apply lookup_insert_eq].
  - rewrite (assign_owned m this a old t2 Hw Ha). cbn.
    by rewrite insert_insert_eq.
  - apply gets_owned; [exact Hw |]. cbn. apply lookup_insert_eq.
Qed.

End wrapper_sequences.

Lemma copy_then_destroy_witness :
  wrappers two_owners !! 3%positive = None
  ∧ owns two_owners 1%positive 1%positive
  ∧ heap two_owners !! 1%positive = Some 10%Z
  ∧ ∃ m', (ctor_copy 3%positive 1%positive;; dtor 3%positive) two_owners
            = Done () m'
        ∧ heap m' = heap two_owners ∧ wrappers m' = wrappers two_owners.
Proof.
  split; [reflexivity |]. split; [reflexivity |]. split; [reflexivity |].
  destruct (copy_then_destroy two_owners 3%positive 1%positive 1%positive 10%Z
              eq_refl eq_refl eq_refl) as (b & m' & Hrun & _ & Hh & Hw & _).
  exists m'. auto.
Defined.

Lemma assignment_overwrites_witness :
  owns two_owners 1%positive 1%positive
  ∧ heap two_owners !! 1%positive = Some 10%Z
  ∧ ∃ m', (assign_const 1%positive 7%Z;; assign_rvalue 1%positive 8%Z) two_owners
            = Done () m'
        ∧ assign_rvalue 1%positive 8%Z two_owners = Done () m'.
Proof.
  split; [reflexivity |]. split; [reflexivity |].
  destruct (assignment_overwrites two_owners 1%positive 1%positive 10%Z 7%Z 8%Z
              eq_refl eq_refl) as (m' & Hrun & Hlast & _).
  exists m'. auto.
Defined.

(* ===================================================================== *)
(** * Move-assignment from a wrapper inside the target's pointee *)
(* ===================================================================== *)

(** Claim C10, where the code departs from it: [parent = std::move(child)]
    with [child] a wrapper inside the pointee of [parent].  [destroy()]
    deletes the pointee of [parent]; its destructor destroys [child] and
    deletes the pointee of [child], so both allocations are gone and
    [child] is no longer alive when [m_t = rhs.m_t] reads it: the
    assignment reads freed storage.  With a source that is an object of its
    own the same code completes, and the destructor of [parent] deletes each
    of the two allocations once. *)
Theorem move_assignment_from_nested_child (n : nat) :
  Nested.destroy (S (S n)) 1%positive Nested.family
    = Nested.Done ()
        (Nested.Machine {[ 3%positive := Nested.Object 30%Z [] ]}
           {[ 1%positive := Some 1%positive; 3%positive := Some 3%positive ]}
           [1%positive; 2%positive])
  ∧ Nested.move_assign (S (S n)) 1%positive 2%positive Nested.family
    = Nested.Fault dead_object
  ∧ Nested.move_assign (S (S n)) 1%positive 3%positive Nested.family
    = Nested.Done ()
        (Nested.Machine {[ 3%positive := Nested.Object 30%Z [] ]}
           {[ 1%positive := Some 3%positive; 3%positive := None ]}
           [1%positive; 2%positive])
  ∧ Nested.dtor (S (S n)) 1%positive Nested.family
    = Nested.Done ()
        (Nested.Machine {[ 3%positive := Nested.Object 30%Z [] ]}
           {[ 3%positive := Some 3%positive ]}
           [1%positive; 2%positive]).
Proof. split_and!; reflexivity. Qed.
